(** * gh-slimify: the eligibility checks and the command scanner of
      [internal/workflow]

    A shallow embedding of the job predicates ([IsUbuntuLatest],
    [HasDockerCommands], [HasContainerActions], [HasServices],
    [HasContainer]) and of the shell-command scanner ([GetMissingCommands],
    [extractCommands], [splitCommandLine], [extractCommandFromPart],
    [normalizeCommand]), together with the part of Go's [strings] and
    [regexp] packages they call.

    Go strings are byte strings: [list ascii].  Go integers used as indices
    are [Z]; an index or slice expression out of range panics, so the
    functions that index return a [result].  *)

From Stdlib Require Import Ascii String ZArith Lia Bool.
From stdpp Require Import gmap strings list.

Open Scope string_scope.
Open Scope list_scope.

(** ** Byte strings *)

Abbreviation gostring := (list ascii).

(** String literals are read as byte strings. *)
Definition str (s : string) : gostring := list_ascii_of_string s.
Coercion str : string >-> list.
Arguments str : simpl never.

Definition code (c : ascii) : N := N_of_ascii c.

Fixpoint eqs (a b : gostring) : bool :=
  match a, b with
  | [], [] => true
  | x :: a', y :: b' => Ascii.eqb x y && eqs a' b'
  | _, _ => false
  end.

Definition isEmpty (s : gostring) : bool :=
  match s with [] => true | _ :: _ => false end.

(** ** Package [strings] *)

Module strings.

(** [strings.HasPrefix(s, prefix)] *)
Fixpoint HasPrefix (s prefix : gostring) {struct prefix} : bool :=
  match prefix, s with
  | [], _ => true
  | p :: prefix', c :: s' => Ascii.eqb c p && HasPrefix s' prefix'
  | _ :: _, [] => false
  end.

(** [strings.Index(s, substr)]: the byte offset of the first occurrence. *)
Fixpoint Index (s substr : gostring) : option nat :=
  if HasPrefix s substr then Some 0
  else match s with
       | [] => None
       | _ :: s' => option_map S (Index s' substr)
       end.

(** [strings.Contains(s, substr)] is [Index(s, substr) >= 0]. *)
Definition Contains (s substr : gostring) : bool :=
  match Index s substr with Some _ => true | None => false end.

(** [strings.Split(s, sep)] for a separator that is not empty, the only use
    the package makes of it: cut at the first occurrence of [sep], go on
    after it.  [n] bounds the number of cuts, as the count of separators
    does in [genSplit]; a string has at most [length s] of them. *)
Fixpoint genSplit (n : nat) (s sep : gostring) : list gostring :=
  match n with
  | O => [s]
  | S n' =>
      match Index s sep with
      | None => [s]
      | Some i => take i s :: genSplit n' (drop (i + length sep) s) sep
      end
  end.

Definition Split (s sep : gostring) : list gostring :=
  genSplit (length s) s sep.

(** [strings.Join(elems, sep)] *)
Fixpoint Join (elems : list gostring) (sep : gostring) : gostring :=
  match elems with
  | [] => []
  | [e] => e
  | e :: rest => e ++ sep ++ Join rest sep
  end.

(** *** White space

    [TrimSpace] and [Fields] use [unicode.IsSpace] on the runes that the
    string encodes in UTF-8.  The white-space runes are the six ASCII ones
    and U+0085, U+00A0, U+1680, U+2000 to U+200A, U+2028, U+2029, U+202F,
    U+205F and U+3000, whose encodings take two or three bytes.  The lead
    byte of such an encoding is never a continuation byte, so Go's decoder
    reads the encoding as that rune wherever it stands in the string, also
    when the bytes around it are not valid UTF-8. *)

Definition asciiSpace (c : ascii) : bool :=
  match code c with
  | 9 | 10 | 11 | 12 | 13 | 32 => true
  | _ => false
  end%N.

Definition isByte (n : N) (c : ascii) : bool := N.eqb (code c) n.

(** The two-byte encodings: U+0085 is C2 85, U+00A0 is C2 A0. *)
Definition space2 (c0 c1 : ascii) : bool :=
  isByte 0xC2 c0 && (isByte 0x85 c1 || isByte 0xA0 c1).

(** The three-byte encodings: U+1680 is E1 9A 80; U+2000 to U+200A are
    E2 80 80 to E2 80 8A; U+2028, U+2029, U+202F are E2 80 A8, A9, AF;
    U+205F is E2 81 9F; U+3000 is E3 80 80. *)
Definition space3 (c0 c1 c2 : ascii) : bool :=
  (isByte 0xE1 c0 && isByte 0x9A c1 && isByte 0x80 c2)
  || (isByte 0xE2 c0 && isByte 0x80 c1
      && ((N.leb 0x80 (code c2) && N.leb (code c2) 0x8A)
          || isByte 0xA8 c2 || isByte 0xA9 c2 || isByte 0xAF c2))
  || (isByte 0xE2 c0 && isByte 0x81 c1 && isByte 0x9F c2)
  || (isByte 0xE3 c0 && isByte 0x80 c1 && isByte 0x80 c2).

(** The number of bytes of the white-space rune at the head of [s];
    0 when [s] does not start with one. *)
Definition spaceWidth (s : gostring) : nat :=
  match s with
  | [] => 0
  | c0 :: r0 =>
      if asciiSpace c0 then 1
      else match r0 with
           | [] => 0
           | c1 :: r1 =>
               if space2 c0 c1 then 2
               else match r1 with
                    | [] => 0
                    | c2 :: _ => if space3 c0 c1 c2 then 3 else 0
                    end
           end
  end.

Arguments spaceWidth : simpl never.

(** What the white-space functions see of a string: its white-space runes,
    and every other byte. *)
Inductive sym : Type :=
| Space (enc : gostring)
| Other (b : ascii).

Definition isSpace (x : sym) : bool :=
  match x with Space _ => true | Other _ => false end.

Definition bytes (x : sym) : gostring :=
  match x with Space enc => enc | Other b => [b] end.

(** [skip] counts the bytes still to pass of the rune being read. *)
Fixpoint scanFrom (skip : nat) (s : gostring) : list sym :=
  match s with
  | [] => []
  | c :: r =>
      match skip with
      | S k => scanFrom k r
      | O =>
          match spaceWidth s with
          | O => Other c :: scanFrom 0 r
          | S w => Space (take (S w) s) :: scanFrom w r
          end
      end
  end.

Definition scan (s : gostring) : list sym := scanFrom 0 s.

Definition unscan (l : list sym) : gostring := concat (map bytes l).

Fixpoint dropWhile {A} (p : A -> bool) (l : list A) : list A :=
  match l with
  | [] => []
  | x :: l' => if p x then dropWhile p l' else l
  end.

Definition dropWhileEnd {A} (p : A -> bool) (l : list A) : list A :=
  rev (dropWhile p (rev l)).

(** [strings.TrimSpace(s)]: [s] without its leading and trailing white
    space. *)
Definition TrimSpace (s : gostring) : gostring :=
  unscan (dropWhileEnd isSpace (dropWhile isSpace (scan s))).

(** [strings.Fields(s)]: the maximal runs of [s] without white space.
    [cur] is the field being read. *)
Fixpoint fieldsFrom (cur : gostring) (l : list sym) : list gostring :=
  match l with
  | [] => if isEmpty cur then [] else [cur]
  | Space _ :: l' =>
      if isEmpty cur then fieldsFrom [] l' else cur :: fieldsFrom [] l'
  | Other b :: l' => fieldsFrom (cur ++ [b]) l'
  end.

Definition Fields (s : gostring) : list gostring := fieldsFrom [] (scan s).

(** *** Letter case *)

Definition isASCII (s : gostring) : bool :=
  forallb (fun c => N.ltb (code c) 0x80) s.

Definition lowerByte (c : ascii) : ascii :=
  if N.leb 65 (code c) && N.leb (code c) 90
  then ascii_of_N (code c + 32) else c.

Section ToLower.

(** [strings.ToLower] maps the bytes 'A' to 'Z' when the string is ASCII,
    and otherwise goes through the case tables of package [unicode]
    ([strings.Map(unicode.ToLower, s)]), which are a parameter here. *)
Variable unicodeLower : gostring -> gostring.

Definition ToLower (s : gostring) : gostring :=
  if isASCII s then map lowerByte s else unicodeLower s.

End ToLower.

End strings.

Import strings.

(** ** Package [regexp]

    The part of the syntax that [containerCommandPatterns] uses: literals,
    character classes, concatenation, alternation, [+] on a class, and the
    ASCII word boundary [\b].  Go matches runes; the literals and classes of
    these patterns are ASCII, a byte of 0x80 or more is neither a word
    character nor in a class, so matching bytes gives the same answer. *)

Module regexp.

Inductive Regexp : Type :=
| Lit (s : gostring)
| Class (f : ascii -> bool)
| Cat (r1 r2 : Regexp)
| Alt (r1 r2 : Regexp)
| Plus (f : ascii -> bool)
| WordBoundary.

Definition inRange (lo hi : N) (c : ascii) : bool :=
  N.leb lo (code c) && N.leb (code c) hi.

(** [\w] is [[0-9A-Za-z_]]. *)
Definition isWordChar (c : ascii) : bool :=
  inRange 48 57 c || inRange 65 90 c || inRange 97 122 c || isByte 95 c.

(** [\s] is [[\t\n\f\r ]]. *)
Definition perlSpace (c : ascii) : bool :=
  match code c with
  | 9 | 10 | 12 | 13 | 32 => true
  | _ => false
  end%N.

(** The text before the start and after the end counts as non-word. *)
Definition wordAt (o : option ascii) : bool :=
  match o with Some c => isWordChar c | None => false end.

(** A backtracking matcher in continuation style.  [prev] is the byte before
    the current position, [s] the text from the current position on, and [k]
    what remains to match after [r]. *)
Fixpoint matchLit (l : gostring) (k : option ascii -> gostring -> bool)
    (prev : option ascii) (s : gostring) : bool :=
  match l with
  | [] => k prev s
  | c :: l' =>
      match s with
      | x :: s' => Ascii.eqb x c && matchLit l' k (Some x) s'
      | [] => false
      end
  end.

Fixpoint matchPlus (f : ascii -> bool) (k : option ascii -> gostring -> bool)
    (s : gostring) : bool :=
  match s with
  | x :: s' => f x && (k (Some x) s' || matchPlus f k s')
  | [] => false
  end.

Fixpoint matchHere (r : Regexp) (k : option ascii -> gostring -> bool)
    (prev : option ascii) (s : gostring) : bool :=
  match r with
  | Lit l => matchLit l k prev s
  | Class f =>
      match s with
      | x :: s' => f x && k (Some x) s'
      | [] => false
      end
  | Cat r1 r2 => matchHere r1 (matchHere r2 k) prev s
  | Alt r1 r2 => matchHere r1 k prev s || matchHere r2 k prev s
  | Plus f => matchPlus f k s
  | WordBoundary => xorb (wordAt prev) (wordAt (head s)) && k prev s
  end.

(** An unanchored pattern matches when it matches from some position. *)
Fixpoint matchFrom (r : Regexp) (prev : option ascii) (s : gostring) : bool :=
  matchHere r (fun _ _ => true) prev s
  || match s with
     | [] => false
     | c :: s' => matchFrom r (Some c) s'
     end.

(** [Regexp.MatchString] *)
Definition MatchString (r : Regexp) (s : gostring) : bool :=
  matchFrom r None s.

Fixpoint cat (l : list Regexp) : Regexp :=
  match l with
  | [] => Lit []
  | [r] => r
  | r :: l' => Cat r (cat l')
  end.

Fixpoint alt (r : Regexp) (l : list Regexp) : Regexp :=
  match l with
  | [] => r
  | r' :: l' => Alt r (alt r' l')
  end.

End regexp.

Import regexp.

(** ** Results of code that can panic *)

Inductive result (A : Type) : Type :=
| Ok (a : A)
| Panic
| OutOfFuel.
Arguments Ok {A} a.
Arguments Panic {A}.
Arguments OutOfFuel {A}.

Definition bind {A B} (m : result A) (f : A -> result B) : result B :=
  match m with
  | Ok a => f a
  | Panic => Panic
  | OutOfFuel => OutOfFuel
  end.

Notation "'let*' x ':=' m 'in' k" := (bind m (fun x => k))
  (at level 10, x name, m at level 100, k at level 200).

(** [l[i]] *)
Definition index {A} (l : list A) (i : Z) : result A :=
  if (i <? 0)%Z then Panic
  else match nth_error l (Z.to_nat i) with
       | Some x => Ok x
       | None => Panic
       end.

(** [l[i:]] *)
Definition sliceFrom {A} (l : list A) (i : Z) : result (list A) :=
  if ((i <? 0) || (Z.of_nat (length l) <? i))%Z then Panic
  else Ok (drop (Z.to_nat i) l).

Definition len {A} (l : list A) : Z := Z.of_nat (length l).

(** ** Package [workflow] *)

#[local] Set Warnings "-register-all".

(** Modelled from the spec: the declarations of [Job] and [Step] (package
    [workflow], not among the sources), after section 3 of the spec and the
    values the tests build.  [any] is a decoded YAML value held in an
    interface: nil, a scalar, a sequence or a mapping.  A job is a [Job]
    value: the methods are not called on a nil pointer. *)
Inductive any : Type :=
| Nil
| Str (s : gostring)
| Bool (b : bool)
| Int (z : Z)
| Slice (l : list any)
| Map (m : list (gostring * any)).

Record Step : Type := mkStep {
  Run : gostring;
  Uses : gostring
}.

Record Job : Type := mkJob {
  RunsOn : any;
  Steps : list Step;
  Services : any;
  Container : any
}.

Definition isNil (v : any) : bool :=
  match v with Nil => true | _ => false end.

Definition spaceOrHyphen (c : ascii) : bool := perlSpace c || isByte 45 c.

(** [\bdocker[\s-](?:build|run|exec|ps|pull|push|tag|login)\b] *)
Definition patternSubcommand : Regexp :=
  cat [WordBoundary; Lit "docker"; Class spaceOrHyphen;
       alt (Lit "build")
         [Lit "run"; Lit "exec"; Lit "ps"; Lit "pull"; Lit "push";
          Lit "tag"; Lit "login"];
       WordBoundary].

(** [\bdocker-compose\b] *)
Definition patternHyphenCompose : Regexp :=
  cat [WordBoundary; Lit "docker-compose"; WordBoundary].

(** [\bdocker\s+compose\b] *)
Definition patternSpaceCompose : Regexp :=
  cat [WordBoundary; Lit "docker"; Plus perlSpace; Lit "compose";
       WordBoundary].

Definition containerCommandPatterns : list Regexp :=
  [patternSubcommand; patternHyphenCompose; patternSpaceCompose].

Definition containerActionPrefixes : list gostring := [str "docker"].

(** [IsUbuntuLatest]: the loop over the items of a sequence. *)
Fixpoint anyItemIs (label : gostring) (v : list any) : bool :=
  match v with
  | [] => false
  | item :: rest =>
      match item with
      | Str s => if eqs s label then true else anyItemIs label rest
      | _ => anyItemIs label rest
      end
  end.

Definition IsUbuntuLatest (j : Job) : bool :=
  match RunsOn j with
  | Nil => false
  | Str v => eqs v "ubuntu-latest"
  | Slice v => anyItemIs "ubuntu-latest" v
  | _ => false
  end.

(** [HasContainerActions]: the loop over the prefixes, then over the steps. *)
Fixpoint hasAnyPrefix (uses : gostring) (prefixes : list gostring) : bool :=
  match prefixes with
  | [] => false
  | prefix :: rest =>
      if HasPrefix uses prefix then true else hasAnyPrefix uses rest
  end.

Fixpoint stepsUseContainerAction (steps : list Step) : bool :=
  match steps with
  | [] => false
  | step :: rest =>
      if isEmpty (Uses step) then stepsUseContainerAction rest
      else if hasAnyPrefix (Uses step) containerActionPrefixes then true
      else stepsUseContainerAction rest
  end.

Definition HasContainerActions (j : Job) : bool :=
  stepsUseContainerAction (Steps j).

Definition HasServices (j : Job) : bool := negb (isNil (Services j)).

Definition HasContainer (j : Job) : bool := negb (isNil (Container j)).

(** [splitCommandLine] *)
Definition separators : list gostring :=
  [str "|"; str "&&"; str "||"; str ";"; str ">>"; str "<<"; str ">";
   str "<"].

(** The loop over the pieces of one split: both branches of the test on
    the position append the trimmed piece. *)
Fixpoint appendTrimmed (newParts : list gostring) (split : list gostring)
    : list gostring :=
  match split with
  | [] => newParts
  | s :: rest =>
      let s := TrimSpace s in
      if negb (isEmpty s) then appendTrimmed (newParts ++ [s]) rest
      else appendTrimmed newParts rest
  end.

Fixpoint splitParts (sep : gostring) (newParts : list gostring)
    (parts : list gostring) : list gostring :=
  match parts with
  | [] => newParts
  | part :: rest =>
      splitParts sep (appendTrimmed newParts (Split part sep)) rest
  end.

Fixpoint splitBy (seps : list gostring) (parts : list gostring)
    : list gostring :=
  match seps with
  | [] => parts
  | sep :: rest => splitBy rest (splitParts sep [] parts)
  end.

Definition splitCommandLine (line : gostring) : list gostring :=
  splitBy separators [line].

(** [extractCommandFromPart] *)
Definition prefixes : list gostring :=
  [str "sudo"; str "env"; str "time"; str "nohup"; str "setsid";
   str "stdbuf"].

(** The first loop: [startIndex] moves over the fields that contain [=]. *)
Fixpoint skipAssignments (fuel : nat) (fields : list gostring)
    (startIndex : Z) : result Z :=
  match fuel with
  | O => OutOfFuel
  | S fuel' =>
      if (startIndex <? len fields)%Z then
        let* field := index fields startIndex in
        if negb (Contains field "=") then Ok startIndex
        else skipAssignments fuel' fields (startIndex + 1)%Z
      else Ok startIndex
  end.

(** The inner loop of the second one: is [field] one of the prefixes? *)
Fixpoint isOneOf (field : gostring) (l : list gostring) : bool :=
  match l with
  | [] => false
  | prefix :: rest => if eqs field prefix then true else isOneOf field rest
  end.

Fixpoint skipPrefixes (fuel : nat) (fields : list gostring)
    (cmdStartIndex : Z) : result Z :=
  match fuel with
  | O => OutOfFuel
  | S fuel' =>
      if (cmdStartIndex <? len fields)%Z then
        let* field := index fields cmdStartIndex in
        if isOneOf field prefixes
        then skipPrefixes fuel' fields (cmdStartIndex + 1)%Z
        else Ok cmdStartIndex
      else Ok cmdStartIndex
  end.

Definition extractCommandFromPart (part : gostring) : result gostring :=
  let part := TrimSpace part in
  if isEmpty part then Ok [] else
  let fields := Fields part in
  if (len fields =? 0)%Z then Ok [] else
  let* startIndex := skipAssignments (S (length fields)) fields 0 in
  if (startIndex >=? len fields)%Z then Ok [] else
  let* rest := sliceFrom fields startIndex in
  let part := Join rest " " in
  let fields := Fields part in
  if (len fields =? 0)%Z then Ok [] else
  let* cmdStartIndex := skipPrefixes (S (length fields)) fields 0 in
  if (cmdStartIndex >=? len fields)%Z then Ok [] else
  index fields cmdStartIndex.

(** [normalizeCommand] *)
Definition normalizeCommand (cmd : gostring) : result gostring :=
  if isEmpty cmd then Ok [] else
  let* cmd :=
    if Contains cmd "/" then
      let parts := Split cmd "/" in
      index parts (len parts - 1)%Z
    else Ok cmd in
  Ok (TrimSpace cmd).

(** [extractCommands]: the loop over the parts of a line, then over the
    lines. *)
Fixpoint commandsOfParts (commands : list gostring) (parts : list gostring)
    : result (list gostring) :=
  match parts with
  | [] => Ok commands
  | part :: rest =>
      let* cmd := extractCommandFromPart part in
      if negb (isEmpty cmd) then commandsOfParts (commands ++ [cmd]) rest
      else commandsOfParts commands rest
  end.

Fixpoint commandsOfLines (commands : list gostring) (lines : list gostring)
    : result (list gostring) :=
  match lines with
  | [] => Ok commands
  | line :: rest =>
      let line := TrimSpace line in
      if isEmpty line then commandsOfLines commands rest
      else if HasPrefix line "#" then commandsOfLines commands rest
      else if HasPrefix line "#!" then commandsOfLines commands rest
      else
        let* commands := commandsOfParts commands (splitCommandLine line) in
        commandsOfLines commands rest
  end.

Definition newline : gostring := [ascii_of_N 10].

Definition extractCommands (script : gostring) : result (list gostring) :=
  commandsOfLines [] (Split script newline).

Section Workflow.

(** The case tables of package [unicode], see [strings.ToLower]. *)
Variable unicodeLower : gostring -> gostring.

(** [IsMissingInSlim], the table of the commands that the slim runner
    lacks, is declared elsewhere in the package. *)
Variable IsMissingInSlim : gostring -> bool.

(** [HasDockerCommands]: the loop over the patterns, then over the
    steps. *)
Fixpoint anyPatternMatches (patterns : list Regexp) (runLower : gostring)
    : bool :=
  match patterns with
  | [] => false
  | pattern :: rest =>
      if MatchString pattern runLower then true
      else anyPatternMatches rest runLower
  end.

Fixpoint stepsRunDocker (steps : list Step) : bool :=
  match steps with
  | [] => false
  | step :: rest =>
      if isEmpty (Run step) then stepsRunDocker rest
      else
        let runLower := ToLower unicodeLower (Run step) in
        if anyPatternMatches containerCommandPatterns runLower then true
        else stepsRunDocker rest
  end.

Definition HasDockerCommands (j : Job) : bool := stepsRunDocker (Steps j).

(** [GetMissingCommands]: [seen] is the map of the names already
    reported; a key that is absent reads as false. *)
Definition seenAt (seen : gmap gostring bool) (k : gostring) : bool :=
  default false (seen !! k).

Fixpoint missingOfCommands (missingCommands : list gostring)
    (seen : gmap gostring bool) (commands : list gostring)
    : result (list gostring * gmap gostring bool) :=
  match commands with
  | [] => Ok (missingCommands, seen)
  | cmd :: rest =>
      let* cmdName := normalizeCommand cmd in
      if isEmpty cmdName then missingOfCommands missingCommands seen rest
      else if IsMissingInSlim cmdName && negb (seenAt seen cmdName)
      then missingOfCommands (missingCommands ++ [cmdName])
             (<[cmdName := true]> seen) rest
      else missingOfCommands missingCommands seen rest
  end.

Fixpoint missingOfSteps (missingCommands : list gostring)
    (seen : gmap gostring bool) (steps : list Step)
    : result (list gostring) :=
  match steps with
  | [] => Ok missingCommands
  | step :: rest =>
      if isEmpty (Run step) then missingOfSteps missingCommands seen rest
      else
        let* commands := extractCommands (Run step) in
        let* st := missingOfCommands missingCommands seen commands in
        missingOfSteps (fst st) (snd st) rest
  end.

Definition GetMissingCommands (j : Job) : result (list gostring) :=
  if negb (IsUbuntuLatest j) then Ok []
  else missingOfSteps [] ∅ (Steps j).

(** Modelled from the spec: the evaluator of package [scan]
    ([isEligible], not among the sources), after section 4.2: the
    criteria 2 to 6 must all hold; the duration bound is skipped when no
    duration is supplied. *)
Definition isEligible (j : Job) : bool :=
  IsUbuntuLatest j
  && negb (HasDockerCommands j)
  && negb (HasContainerActions j)
  && negb (HasServices j)
  && negb (HasContainer j).

End Workflow.

(** * Specification

    The notions in which the properties below are stated. *)

(** ** White space and fields *)

(** A list of symbols is what [scan] gives for the bytes it stands for. *)
Fixpoint scanned (l : list sym) : Prop :=
  match l with
  | [] => True
  | Space enc :: l' => enc <> [] /\ spaceWidth enc = length enc /\ scanned l'
  | Other b :: l' => spaceWidth (b :: unscan l') = 0 /\ scanned l'
  end.

Definition word (w : gostring) : Prop := w <> [] /\ scanned (map Other w).

Definition sp : ascii := " "%char.

(** ** Fragments and their commands *)

Definition hasEq (field : gostring) : bool := Contains field "=".

Definition isWrapper (field : gostring) : bool := isOneOf field prefixes.

Fixpoint countWhile {A} (p : A -> bool) (l : list A) : nat :=
  match l with
  | [] => 0
  | x :: l' => if p x then S (countWhile p l') else 0
  end.

Definition slash : ascii := "/"%char.

(** The command of a fragment: its first field after the leading fields
    with [=] and then the leading wrapper prefixes; empty if none is
    left. *)
Definition commandOf (part : gostring) : gostring :=
  hd [] (dropWhile isWrapper (dropWhile hasEq (Fields part))).

Definition nonEmpty (s : gostring) : bool := negb (isEmpty s).

(** The fragments of a line: none for a blank line or a comment line. *)
Definition lineFragments (line : gostring) : list gostring :=
  let line := TrimSpace line in
  if isEmpty line || HasPrefix line "#" then [] else splitCommandLine line.

(** The fragments of a script. *)
Definition fragments (script : gostring) : list gostring :=
  flat_map lineFragments (Split script newline).

(** ** Patterns *)

(** The last byte of [w], or [prev] when [w] is empty: the byte before the
    position reached after reading [w]. *)
Fixpoint lastOr (prev : option ascii) (w : gostring) : option ascii :=
  match w with
  | [] => prev
  | c :: w' => lastOr (Some c) w'
  end.

(** [denotes r prev w rest]: [r] matches the text [w], read after the byte
    [prev] and before the text [rest]. *)
Fixpoint denotes (r : Regexp) (prev : option ascii) (w rest : gostring)
    : Prop :=
  match r with
  | Lit l => w = l
  | Class f => exists c, w = [c] /\ f c = true
  | Cat r1 r2 =>
      exists w1 w2, w = w1 ++ w2 /\ denotes r1 prev w1 (w2 ++ rest)
                    /\ denotes r2 (lastOr prev w1) w2 rest
  | Alt r1 r2 => denotes r1 prev w rest \/ denotes r2 prev w rest
  | Plus f => w <> [] /\ forallb f w = true
  | WordBoundary =>
      w = [] /\ xorb (wordAt prev) (wordAt (head rest)) = true
  end.

(** The alternatives of the first pattern. *)
Definition dockerSubcommands : list gostring :=
  [str "build"; str "run"; str "exec"; str "ps"; str "pull"; str "push";
   str "tag"; str "login"].

(** What the three patterns look for in a text, with the list of
    subcommands as a parameter: [docker], a white-space byte or a hyphen and
    a subcommand; or [docker-compose]; or [docker], white space and
    [compose]; each time with no word character just before and just
    after. *)
Definition dockerInvocation (subs : list gostring) (t : gostring) : Prop :=
  exists pre post,
    wordAt (lastOr None pre) = false /\ wordAt (head post) = false
    /\ ((exists sep sub,
           spaceOrHyphen sep = true /\ In sub subs
           /\ t = pre ++ "docker" ++ sep :: sub ++ post)
        \/ t = pre ++ "docker-compose" ++ post
        \/ (exists ws,
              ws <> [] /\ forallb perlSpace ws = true
              /\ t = pre ++ "docker" ++ ws ++ "compose" ++ post)).

Definition atWordBoundaries (prev : option ascii) (post : gostring) : Prop :=
  wordAt prev = false /\ wordAt (head post) = false.

(** The subcommands as the claim lists them, with [list] where the pattern
    has [ps]. *)
Definition claimedSubcommands : list gostring :=
  [str "build"; str "run"; str "exec"; str "list"; str "pull"; str "push";
   str "tag"; str "login"].

(** ** Jobs *)

(** The reading of the claim: the field is present and, whatever its form,
    not empty. *)
Definition presentAndNonEmpty (v : any) : bool :=
  match v with
  | Nil => false
  | Str s => negb (isEmpty s)
  | Slice l => match l with [] => false | _ :: _ => true end
  | Map m => match m with [] => false | _ :: _ => true end
  | Bool _ | Int _ => true
  end.

(** A job on [ubuntu-latest] with one shell step. *)
Definition shellJob (run : gostring) : Job :=
  mkJob (Str "ubuntu-latest") [mkStep run []] Nil Nil.

(** Case tables that change nothing, for the examples, which are ASCII. *)
Definition noCaseTables (s : gostring) : gostring := s.

(** A table of missing commands that lists [docker] only, for the
    examples. *)
Definition dockerOnly (name : gostring) : bool := eqs name "docker".

(** ** Notions for the further properties *)

(** The symbols that [TrimSpace] keeps. *)
Definition trimmed (l : list sym) : list sym :=
  dropWhileEnd isSpace (dropWhile isSpace l).

(** The map [seen] holds exactly the names reported so far. *)
Definition tracks (seen : gmap gostring bool) (missing : list gostring)
    : Prop :=
  forall n, seenAt seen n = true <-> In n missing.

(** [n] is the name of a command of one of the steps. *)
Definition namedIn (steps : list Step) (n : gostring) : Prop :=
  exists step commands cmd,
    In step steps /\ extractCommands (Run step) = Ok commands
    /\ In cmd commands /\ normalizeCommand cmd = Ok n.

(** * Properties *)

(** ** Byte strings *)

Lemma eqs_eq (a b : gostring) : eqs a b = true <-> a = b.
Proof.
  revert b; induction a as [|x a IH]; intros [|y b]; simpl; try easy.
  rewrite andb_true_iff, Ascii.eqb_eq, IH. split.
  - intros [-> ->]; reflexivity.
  - intros [= -> ->]; auto.
Qed.

Lemma eqs_neq (a b : gostring) : eqs a b = false <-> a <> b.
Proof.
  rewrite <- eqs_eq. destruct (eqs a b); split; congruence.
Qed.

Lemma HasPrefix_iff (s p : gostring) :
  HasPrefix s p = true <-> exists r, s = p ++ r.
Proof.
  revert s; induction p as [|c p IH]; intros s; simpl.
  - split; [intros _; now exists s | easy].
  - destruct s as [|x s]; simpl.
    + split; [easy | intros [r [=]]].
    + rewrite andb_true_iff, Ascii.eqb_eq, IH. split.
      * intros [-> [r ->]]; eauto.
      * intros [r [= -> ->]]; eauto.
Qed.

(** ** White space *)

Lemma spaceWidth_app (x y : gostring) (w : nat) :
  spaceWidth x = S w -> spaceWidth (x ++ y) = S w.
Proof.
  destruct x as [|c0 [|c1 [|c2 x]]]; unfold spaceWidth; simpl;
    try discriminate;
    destruct (asciiSpace c0); try easy;
    destruct (space2 c0 c1); try easy.
Qed.

Lemma spaceWidth_app_0 (x y : gostring) :
  spaceWidth (x ++ y) = 0 -> spaceWidth x = 0.
Proof.
  intros H. destruct (spaceWidth x) as [|w] eqn:E; [reflexivity|].
  now rewrite (spaceWidth_app x y w E) in H.
Qed.

Lemma spaceWidth_take (s : gostring) (w : nat) :
  spaceWidth s = S w ->
  spaceWidth (take (S w) s) = S w /\ length (take (S w) s) = S w.
Proof.
  unfold spaceWidth.
  destruct s as [|c0 r0]; simpl; [discriminate|].
  destruct (asciiSpace c0) eqn:E0.
  { intros [= <-]. simpl. rewrite ?E0. auto. }
  destruct r0 as [|c1 r1]; [discriminate|].
  destruct (space2 c0 c1) eqn:E1.
  { intros [= <-]. simpl. rewrite ?E0, ?E1. auto. }
  destruct r1 as [|c2 r2]; [discriminate|].
  destruct (space3 c0 c1 c2) eqn:E2; [|discriminate].
  intros [= <-]. simpl. rewrite ?E0, ?E1, ?E2. auto.
Qed.

Lemma unscan_app (l1 l2 : list sym) :
  unscan (l1 ++ l2) = unscan l1 ++ unscan l2.
Proof. unfold unscan. now rewrite map_app, concat_app. Qed.

Lemma unscan_cons (x : sym) (l : list sym) :
  unscan (x :: l) = bytes x ++ unscan l.
Proof. reflexivity. Qed.

Lemma unscan_scanFrom (k : nat) (s : gostring) :
  unscan (scanFrom k s) = drop k s.
Proof.
  revert k; induction s as [|c r IH]; intros k; [now destruct k|].
  destruct k as [|k]; simpl scanFrom; [|apply IH].
  destruct (spaceWidth (c :: r)) as [|w] eqn:E;
    rewrite unscan_cons, IH; simpl; [reflexivity|].
  now rewrite take_drop.
Qed.

Lemma unscan_scan (s : gostring) : unscan (scan s) = s.
Proof. apply unscan_scanFrom. Qed.

Lemma scanned_scanFrom (k : nat) (s : gostring) : scanned (scanFrom k s).
Proof.
  revert k; induction s as [|c r IH]; intros k; [now destruct k|].
  destruct k as [|k]; simpl scanFrom; [|apply IH].
  destruct (spaceWidth (c :: r)) as [|w] eqn:E; simpl scanned.
  - rewrite unscan_scanFrom. simpl. auto.
  - destruct (spaceWidth_take _ _ E) as [H1 H2]. simpl in H1, H2.
    split; [easy | split; [congruence | apply IH]].
Qed.

Lemma scanned_scan (s : gostring) : scanned (scan s).
Proof. apply scanned_scanFrom. Qed.

Lemma scanFrom_drop (k : nat) (s : gostring) : scanFrom k s = scan (drop k s).
Proof.
  revert k; induction s as [|c r IH]; intros k; [now destruct k|].
  destruct k as [|k]; [reflexivity|]. simpl. apply IH.
Qed.

Lemma scan_Other (c : ascii) (r : gostring) :
  spaceWidth (c :: r) = 0 -> scan (c :: r) = Other c :: scan r.
Proof. intros H. unfold scan; simpl scanFrom. now rewrite H. Qed.

Lemma scan_Space (enc r : gostring) :
  enc <> [] -> spaceWidth enc = length enc ->
  scan (enc ++ r) = Space enc :: scan r.
Proof.
  intros Hne Hw. destruct enc as [|c enc]; [easy|].
  simpl length in Hw. pose proof (spaceWidth_app _ r _ Hw) as H.
  unfold scan. simpl app in *. simpl scanFrom. rewrite H.
  rewrite scanFrom_drop. f_equal.
  - f_equal. simpl. f_equal. now rewrite take_app_length.
  - now rewrite drop_app_length.
Qed.

Lemma scan_unscan (l : list sym) : scanned l -> scan (unscan l) = l.
Proof.
  induction l as [|[enc|b] l IH]; simpl scanned.
  - reflexivity.
  - intros (Hne & Hw & Hl).
    rewrite unscan_cons; simpl bytes.
    rewrite scan_Space by assumption. now rewrite IH.
  - intros (Hw & Hl).
    rewrite unscan_cons; simpl bytes; simpl app.
    rewrite scan_Other by assumption. now rewrite IH.
Qed.

Lemma scanned_app_l (l1 l2 : list sym) : scanned (l1 ++ l2) -> scanned l1.
Proof.
  induction l1 as [|[enc|b] l1 IH]; simpl; auto.
  - intros (? & ? & ?); auto.
  - intros (Hw & Hl). split; [|auto].
    rewrite unscan_app in Hw.
    now apply (spaceWidth_app_0 (b :: unscan l1) (unscan l2)).
Qed.

Lemma scanned_app_r (l1 l2 : list sym) : scanned (l1 ++ l2) -> scanned l2.
Proof.
  induction l1 as [|[enc|b] l1 IH]; simpl; auto.
  - intros (? & ? & ?); auto.
  - intros (? & ?); auto.
Qed.

Lemma dropWhile_suffix {A} (p : A -> bool) (l : list A) :
  exists l0, l = l0 ++ dropWhile p l /\ forallb p l0 = true.
Proof.
  induction l as [|x l (l0 & E & H)]; simpl.
  - now exists [].
  - destruct (p x) eqn:Ex.
    + exists (x :: l0). simpl. rewrite Ex, H. split; [congruence | reflexivity].
    + now exists [].
Qed.

Lemma dropWhileEnd_prefix {A} (p : A -> bool) (l : list A) :
  exists l1, l = dropWhileEnd p l ++ l1 /\ forallb p l1 = true.
Proof.
  unfold dropWhileEnd.
  destruct (dropWhile_suffix p (rev l)) as (l0 & E & H).
  exists (rev l0). split.
  - rewrite <- rev_app_distr, <- E. now rewrite rev_involutive.
  - rewrite forallb_forall in *. intros x Hx. apply H. now apply in_rev.
Qed.

Lemma fieldsFrom_spaces (cur : gostring) (l : list sym) :
  forallb isSpace l = true -> fieldsFrom cur l = fieldsFrom cur [].
Proof.
  revert cur; induction l as [|[enc|b] l IH]; intros cur; simpl; try easy.
  intros H. rewrite (IH [] H). simpl. now destruct cur.
Qed.

Lemma fieldsFrom_app_spaces (cur : gostring) (l l1 : list sym) :
  forallb isSpace l1 = true -> fieldsFrom cur (l ++ l1) = fieldsFrom cur l.
Proof.
  intros H. revert cur; induction l as [|[enc|b] l IH]; intros cur; simpl.
  - now apply fieldsFrom_spaces.
  - now rewrite IH.
  - apply IH.
Qed.

Lemma fieldsFrom_spaces_app (l0 l : list sym) :
  forallb isSpace l0 = true -> fieldsFrom [] (l0 ++ l) = fieldsFrom [] l.
Proof.
  induction l0 as [|[enc|b] l0 IH]; simpl; try easy.
Qed.

Lemma Fields_TrimSpace (s : gostring) : Fields (TrimSpace s) = Fields s.
Proof.
  unfold Fields, TrimSpace.
  destruct (dropWhile_suffix isSpace (scan s)) as (l0 & E0 & H0).
  destruct (dropWhileEnd_prefix isSpace (dropWhile isSpace (scan s)))
    as (l1 & E1 & H1).
  rewrite scan_unscan.
  - rewrite E0 at 2. rewrite fieldsFrom_spaces_app by assumption.
    rewrite E1 at 2. now rewrite fieldsFrom_app_spaces.
  - apply scanned_app_l with l1. rewrite <- E1.
    apply scanned_app_r with l0. rewrite <- E0. apply scanned_scan.
Qed.

(** *** Words: what [Fields] returns *)

Lemma unscan_Others (w : gostring) : unscan (map Other w) = w.
Proof.
  induction w as [|b w IH]; [reflexivity|].
  simpl map. rewrite unscan_cons, IH. reflexivity.
Qed.

Lemma fieldsFrom_words (cur : gostring) (l : list sym) :
  scanned (map Other cur ++ l) -> Forall word (fieldsFrom cur l).
Proof.
  revert cur; induction l as [|[enc|b] l IH]; intros cur H; simpl.
  - rewrite app_nil_r in H. destruct cur; simpl; [constructor|].
    constructor; [split; [easy | assumption] | constructor].
  - assert (Hl : Forall word (fieldsFrom [] l)).
    { apply IH. simpl. apply scanned_app_r with (map Other cur ++ [Space enc]).
      now rewrite <- app_assoc. }
    destruct cur as [|c cur]; simpl; [assumption|].
    constructor; [|assumption]. split; [easy|].
    now apply scanned_app_l with (Space enc :: l).
  - apply IH. now rewrite map_app, <- app_assoc.
Qed.

Lemma Fields_words (s : gostring) : Forall word (Fields s).
Proof. apply fieldsFrom_words. simpl. apply scanned_scan. Qed.

Lemma space2_sp (b : ascii) : space2 b sp = false.
Proof. unfold space2. simpl. now rewrite andb_false_r. Qed.

Lemma space3_sp_mid (b c : ascii) : space3 b sp c = false.
Proof.
  unfold space3. simpl. now rewrite ?andb_false_r, ?andb_false_l.
Qed.

Lemma space3_sp_end (b c : ascii) : space3 b c sp = false.
Proof.
  unfold space3. simpl. now rewrite ?andb_false_r, ?andb_false_l.
Qed.

(** A byte that is not at the start of white space is not either when a
    space is written after the bytes that follow it. *)
Lemma spaceWidth_before_sp (b : ascii) (u x : gostring) :
  spaceWidth (b :: u) = 0 -> spaceWidth (b :: u ++ sp :: x) = 0.
Proof.
  unfold spaceWidth. destruct (asciiSpace b); [discriminate|].
  destruct u as [|c1 u]; simpl.
  - intros _. rewrite space2_sp. destruct x; [reflexivity|].
    now rewrite space3_sp_mid.
  - destruct (space2 b c1); [discriminate|].
    destruct u as [|c2 u]; simpl; [|easy].
    intros _. now rewrite space3_sp_end.
Qed.

Lemma scan_word_sp (w x : gostring) :
  scanned (map Other w) ->
  scan (w ++ sp :: x) = map Other w ++ Space [sp] :: scan x.
Proof.
  induction w as [|b w IH]; simpl.
  - intros _. now apply (scan_Space [sp] x).
  - rewrite unscan_Others. intros [Hw H].
    rewrite scan_Other by now apply spaceWidth_before_sp.
    now rewrite IH.
Qed.

Lemma scan_word (w : gostring) : scanned (map Other w) -> scan w = map Other w.
Proof.
  intros H. rewrite <- (unscan_Others w) at 1. now apply scan_unscan.
Qed.

Lemma fieldsFrom_Others (cur w : gostring) (l : list sym) :
  fieldsFrom cur (map Other w ++ l) = fieldsFrom (cur ++ w) l.
Proof.
  revert cur; induction w as [|b w IH]; intros cur; simpl.
  - now rewrite app_nil_r.
  - rewrite IH. now rewrite <- app_assoc.
Qed.

Lemma Fields_word (w : gostring) : word w -> Fields w = [w].
Proof.
  intros [Hne H]. unfold Fields. rewrite (scan_word w H).
  rewrite <- (app_nil_r (map Other w)), fieldsFrom_Others. simpl.
  now destruct w.
Qed.

(** Joining words with a space and splitting again gives the words back. *)
Lemma Fields_Join (ws : list gostring) :
  Forall word ws -> Fields (Join ws " ") = ws.
Proof.
  induction ws as [|w ws IH]; [reflexivity|].
  intros H. inversion H as [|? ? Hw Hws]; subst.
  destruct ws as [|w' ws].
  - now apply Fields_word.
  - specialize (IH Hws). destruct Hw as [Hne Hw].
    change (Join (w :: w' :: ws) " ") with (w ++ sp :: Join (w' :: ws) " ").
    unfold Fields. rewrite (scan_word_sp _ _ Hw), fieldsFrom_Others.
    simpl app. simpl fieldsFrom.
    destruct w as [|c w]; [easy|]. simpl isEmpty. cbv iota.
    f_equal. exact IH.
Qed.

Lemma Forall_drop {A} (P : A -> Prop) (n : nat) (l : list A) :
  Forall P l -> Forall P (drop n l).
Proof.
  revert n; induction l as [|x l IH]; intros [|n] H; simpl; auto.
  inversion H; auto.
Qed.

(** ** The loops of [extractCommandFromPart] *)

Lemma drop_countWhile {A} (p : A -> bool) (l : list A) :
  drop (countWhile p l) l = dropWhile p l.
Proof.
  induction l as [|x l IH]; simpl; [reflexivity|].
  destruct (p x); [exact IH | reflexivity].
Qed.

Lemma countWhile_le {A} (p : A -> bool) (l : list A) :
  countWhile p l <= length l.
Proof.
  induction l as [|x l IH]; simpl; [lia|]. destruct (p x); lia.
Qed.

Lemma countWhile_all {A} (p : A -> bool) (l : list A) :
  countWhile p l = length l <-> dropWhile p l = [].
Proof.
  induction l as [|x l IH]; simpl; [easy|].
  destruct (p x); [rewrite <- IH; lia | easy].
Qed.

Lemma index_app_length {A} (l1 l2 : list A) (x : A) :
  index (l1 ++ x :: l2) (Z.of_nat (length l1)) = Ok x.
Proof.
  unfold index. destruct (Z.ltb_spec (Z.of_nat (length l1)) 0); [lia|].
  rewrite Nat2Z.id, nth_error_app2 by lia.
  now rewrite Nat.sub_diag.
Qed.

Lemma skipAssignments_spec (todo done : list gostring) (fuel : nat) :
  length todo < fuel ->
  skipAssignments fuel (done ++ todo) (Z.of_nat (length done))
  = Ok (Z.of_nat (length done + countWhile hasEq todo)).
Proof.
  revert done fuel; induction todo as [|x todo IH]; intros done fuel Hf;
    (destruct fuel as [|fuel]; [simpl in Hf; lia|]);
    cbn [skipAssignments]; unfold len; rewrite length_app; simpl length.
  - destruct (Z.ltb_spec (Z.of_nat (length done))
                (Z.of_nat (length done + 0))); [lia|].
    simpl. now rewrite Nat.add_0_r.
  - destruct (Z.ltb_spec (Z.of_nat (length done))
                (Z.of_nat (length done + S (length todo)))); [|lia].
    rewrite index_app_length. cbn [bind countWhile]. fold (hasEq x).
    destruct (hasEq x); cbn [negb].
    + specialize (IH (done ++ [x]) fuel).
      rewrite <- app_assoc, length_app in IH. simpl in IH.
      replace (Z.of_nat (length done) + 1)%Z
        with (Z.of_nat (length done + 1)) by lia.
      rewrite IH by (simpl in Hf; lia). f_equal. lia.
    + now rewrite Nat.add_0_r.
Qed.

Lemma skipPrefixes_spec (todo done : list gostring) (fuel : nat) :
  length todo < fuel ->
  skipPrefixes fuel (done ++ todo) (Z.of_nat (length done))
  = Ok (Z.of_nat (length done + countWhile isWrapper todo)).
Proof.
  revert done fuel; induction todo as [|x todo IH]; intros done fuel Hf;
    (destruct fuel as [|fuel]; [simpl in Hf; lia|]);
    cbn [skipPrefixes]; unfold len; rewrite length_app; simpl length.
  - destruct (Z.ltb_spec (Z.of_nat (length done))
                (Z.of_nat (length done + 0))); [lia|].
    simpl. now rewrite Nat.add_0_r.
  - destruct (Z.ltb_spec (Z.of_nat (length done))
                (Z.of_nat (length done + S (length todo)))); [|lia].
    rewrite index_app_length. cbn [bind countWhile]. fold (isWrapper x).
    destruct (isWrapper x).
    + specialize (IH (done ++ [x]) fuel).
      rewrite <- app_assoc, length_app in IH. simpl in IH.
      replace (Z.of_nat (length done) + 1)%Z
        with (Z.of_nat (length done + 1)) by lia.
      rewrite IH by (simpl in Hf; lia). f_equal. lia.
    + now rewrite Nat.add_0_r.
Qed.

Lemma skipAssignments_all (fields : list gostring) :
  skipAssignments (S (length fields)) fields 0
  = Ok (Z.of_nat (countWhile hasEq fields)).
Proof. apply (skipAssignments_spec fields [] (S (length fields))). lia. Qed.

Lemma skipPrefixes_all (fields : list gostring) :
  skipPrefixes (S (length fields)) fields 0
  = Ok (Z.of_nat (countWhile isWrapper fields)).
Proof. apply (skipPrefixes_spec fields [] (S (length fields))). lia. Qed.

Lemma index_drop_hd (l : list gostring) (n : nat) :
  n < length l -> index l (Z.of_nat n) = Ok (hd [] (drop n l)).
Proof.
  intros H. unfold index.
  destruct (Z.ltb_spec (Z.of_nat n) 0) as [?|_]; [lia|]. rewrite Nat2Z.id.
  revert n H; induction l as [|x l IH]; intros [|n] H; simpl in *;
    try lia; [reflexivity|].
  apply IH. lia.
Qed.

Lemma TrimSpace_empty_Fields (s : gostring) : TrimSpace s = [] -> Fields s = [].
Proof. intros H. now rewrite <- Fields_TrimSpace, H. Qed.

(** [extractCommandFromPart] never panics and always runs its loops to
    their end: it returns the first field that is left once the leading
    fields with [=], and then the leading wrapper prefixes, are passed; the
    empty string if no field is left. *)
Lemma extractCommandFromPart_spec (part : gostring) :
  extractCommandFromPart part
  = Ok (hd [] (dropWhile isWrapper (dropWhile hasEq (Fields part)))).
Proof.
  unfold extractCommandFromPart.
  destruct (TrimSpace part) as [|c t] eqn:Et.
  { now rewrite (TrimSpace_empty_Fields _ Et). }
  cbn [isEmpty]. rewrite <- Et, Fields_TrimSpace.
  pose proof (Fields_words part) as Hw.
  set (fields := Fields part) in *.
  unfold len at 1.
  destruct (Z.eqb_spec (Z.of_nat (length fields)) 0) as [E0|E0].
  { destruct fields; [reflexivity | simpl in E0; lia]. }
  rewrite skipAssignments_all. cbn [bind].
  pose proof (countWhile_le hasEq fields) as Hle.
  pose proof (drop_countWhile hasEq fields) as Hd.
  pose proof (countWhile_all hasEq fields) as Hall.
  set (k := countWhile hasEq fields) in *.
  unfold len at 1.
  destruct (Z.geb_spec (Z.of_nat k) (Z.of_nat (length fields))) as [Hk|Hk].
  { assert (E : dropWhile hasEq fields = []) by (apply Hall; lia).
    now rewrite E. }
  unfold sliceFrom.
  destruct (Z.ltb_spec (Z.of_nat k) 0); [lia|].
  destruct (Z.ltb_spec (Z.of_nat (length fields)) (Z.of_nat k)); [lia|].
  cbn [orb bind]. rewrite Nat2Z.id, Hd.
  assert (Hr : Forall word (dropWhile hasEq fields)).
  { rewrite <- Hd. now apply Forall_drop. }
  rewrite (Fields_Join _ Hr).
  set (rest := dropWhile hasEq fields) in *.
  unfold len at 1.
  destruct (Z.eqb_spec (Z.of_nat (length rest)) 0) as [E1|E1].
  { destruct rest; [reflexivity | simpl in E1; lia]. }
  rewrite skipPrefixes_all. cbn [bind].
  pose proof (countWhile_le isWrapper rest) as Hle'.
  pose proof (drop_countWhile isWrapper rest) as Hd'.
  pose proof (countWhile_all isWrapper rest) as Hall'.
  set (m := countWhile isWrapper rest) in *.
  unfold len at 1.
  destruct (Z.geb_spec (Z.of_nat m) (Z.of_nat (length rest))) as [Hm|Hm].
  { assert (E : dropWhile isWrapper rest = []) by (apply Hall'; lia).
    now rewrite E. }
  rewrite index_drop_hd by lia. now rewrite Hd'.
Qed.

(** ** [Index] and [Split] on a one-byte separator *)

Lemma Index_byte_notin (c : ascii) (s : gostring) :
  ~ In c s -> Index s [c] = None.
Proof.
  induction s as [|x s IH]; intros H; cbn [Index HasPrefix]; [reflexivity|].
  destruct (Ascii.eqb_spec x c) as [->|Hx].
  - exfalso. apply H. now left.
  - cbn [andb]. rewrite IH; [reflexivity|]. intros Hin. apply H. now right.
Qed.

Lemma Index_byte_first (c : ascii) (a b : gostring) :
  ~ In c a -> Index (a ++ c :: b) [c] = Some (length a).
Proof.
  induction a as [|x a IH]; intros H; cbn [app Index HasPrefix length].
  - now rewrite Ascii.eqb_refl.
  - destruct (Ascii.eqb_spec x c) as [->|Hx].
    + exfalso. apply H. now left.
    + cbn [andb]. rewrite IH; [reflexivity|]. intros Hin. apply H. now right.
Qed.

Lemma Contains_byte (c : ascii) (s : gostring) :
  Contains s [c] = true <-> In c s.
Proof.
  unfold Contains. split.
  - intros H. destruct (in_dec ascii_dec c s) as [Hin|Hin]; [assumption|].
    now rewrite (Index_byte_notin c s Hin) in H.
  - intros Hin. apply in_split in Hin as (a & b & ->).
    revert b; induction a as [|x a IH]; intros b; cbn [app Index HasPrefix].
    + now rewrite Ascii.eqb_refl.
    + destruct (Ascii.eqb x c); cbn [andb]; [reflexivity|].
      specialize (IH b). now destruct (Index (a ++ c :: b) [c]).
Qed.

Lemma first_byte (c : ascii) (s : gostring) :
  ~ In c s \/ exists a b, s = a ++ c :: b /\ ~ In c a.
Proof.
  induction s as [|x s [IH|(a & b & -> & Ha)]].
  - left. easy.
  - destruct (ascii_dec x c) as [->|Hx].
    + right. exists [], s. auto.
    + left. intros [?|?]; auto.
  - destruct (ascii_dec x c) as [->|Hx].
    + right. exists [], (a ++ c :: b). auto.
    + right. exists (x :: a), b. split; [reflexivity|].
      intros [?|?]; auto.
Qed.

Lemma genSplit_nonempty (n : nat) (s sep : gostring) : genSplit n s sep <> [].
Proof. destruct n; simpl; [easy|]. now destruct (Index s sep). Qed.

Lemma genSplit_byte_notin (n : nat) (c : ascii) (s : gostring) :
  ~ In c s -> genSplit n s [c] = [s].
Proof.
  intros H. destruct n; simpl; [reflexivity|].
  now rewrite (Index_byte_notin c s H).
Qed.

Lemma last_cons_nonempty {A} (x : A) (l : list A) (d : A) :
  l <> [] -> List.last (x :: l) d = List.last l d.
Proof. destruct l; [easy | reflexivity]. Qed.

(** The last piece of a split at [c] is what follows the last [c]. *)
Lemma genSplit_byte_last (c : ascii) (base : gostring) (n : nat) :
  ~ In c base ->
  forall dir, length (dir ++ c :: base) <= n ->
              List.last (genSplit n (dir ++ c :: base) [c]) [] = base.
Proof.
  intros Hb. induction n as [|n IH]; intros dir Hn.
  { rewrite length_app in Hn. simpl in Hn. lia. }
  cbn [genSplit].
  destruct (first_byte c dir) as [Hd|(a & d & -> & Ha)].
  - rewrite (Index_byte_first c dir base Hd).
    rewrite last_cons_nonempty by apply genSplit_nonempty.
    replace (drop (length dir + length [c]) (dir ++ c :: base)) with base.
    + now rewrite genSplit_byte_notin.
    + change (dir ++ c :: base) with (dir ++ [c] ++ base).
      rewrite app_assoc, drop_app_length'; [reflexivity|].
      rewrite length_app. reflexivity.
  - rewrite <- app_assoc. cbn [app].
    rewrite (Index_byte_first c a (d ++ c :: base) Ha).
    rewrite last_cons_nonempty by apply genSplit_nonempty.
    replace (drop (length a + length [c]) (a ++ c :: d ++ c :: base))
      with (d ++ c :: base).
    + apply IH. rewrite !length_app in *. simpl in *. lia.
    + change (a ++ c :: d ++ c :: base) with (a ++ [c] ++ d ++ c :: base).
      rewrite app_assoc, drop_app_length'; [reflexivity|].
      rewrite length_app. reflexivity.
Qed.

Lemma index_last {A} (l : list A) (d : A) :
  l <> [] -> index l (len l - 1)%Z = Ok (List.last l d).
Proof.
  intros Hl. unfold index, len.
  destruct (Z.ltb_spec (Z.of_nat (length l) - 1) 0) as [H|_].
  { destruct l; [easy | simpl in H; lia]. }
  replace (Z.to_nat (Z.of_nat (length l) - 1)) with (length l - 1) by lia.
  induction l as [|x l IH]; [easy|].
  destruct l as [|y l]; [reflexivity|].
  rewrite last_cons_nonempty by easy. rewrite <- IH by easy.
  simpl. now rewrite Nat.sub_0_r.
Qed.

(** ** [normalizeCommand] *)

Lemma normalizeCommand_plain (cmd : gostring) :
  ~ In slash cmd -> normalizeCommand cmd = Ok (TrimSpace cmd).
Proof.
  intros H. unfold normalizeCommand.
  destruct cmd as [|c cmd]; [reflexivity|]. cbn [isEmpty].
  destruct (Contains (c :: cmd) "/") eqn:E; [|reflexivity].
  apply (Contains_byte slash) in E. contradiction.
Qed.

Lemma normalizeCommand_path (dir base : gostring) :
  ~ In slash base ->
  normalizeCommand (dir ++ "/" ++ base) = Ok (TrimSpace base).
Proof.
  intros H. unfold normalizeCommand.
  change (dir ++ "/" ++ base) with (dir ++ slash :: base).
  destruct (dir ++ slash :: base) as [|c cmd] eqn:Ec.
  { now destruct dir. }
  cbn [isEmpty]. rewrite <- Ec.
  assert (E : Contains (dir ++ slash :: base) "/" = true).
  { apply (Contains_byte slash). apply in_or_app. right. now left. }
  rewrite E. unfold Split.
  rewrite (index_last _ []) by apply genSplit_nonempty.
  cbn [bind]. f_equal. f_equal.
  now apply (genSplit_byte_last slash base).
Qed.

Lemma normalizeCommand_total (cmd : gostring) :
  exists name, normalizeCommand cmd = Ok name.
Proof.
  destruct (first_byte slash (rev cmd)) as [H|(a & b & E & Ha)].
  - exists (TrimSpace cmd). apply normalizeCommand_plain.
    intros Hin. apply H. now apply in_rev in Hin.
  - exists (TrimSpace (rev a)).
    assert (Ec : cmd = rev b ++ "/" ++ rev a).
    { rewrite <- (rev_involutive cmd), E, rev_app_distr. simpl.
      now rewrite <- app_assoc. }
    rewrite Ec. apply normalizeCommand_path.
    intros Hin. apply Ha. now apply in_rev.
Qed.

(** ** [extractCommands] *)

Lemma commandsOfParts_spec (parts commands : list gostring) :
  commandsOfParts commands parts
  = Ok (commands ++ List.filter nonEmpty (map commandOf parts)).
Proof.
  revert commands; induction parts as [|part parts IH]; intros commands;
    cbn [commandsOfParts map List.filter].
  - now rewrite app_nil_r.
  - rewrite extractCommandFromPart_spec. cbn [bind].
    fold (commandOf part). fold (nonEmpty (commandOf part)).
    destruct (nonEmpty (commandOf part)); rewrite IH; [|reflexivity].
    now rewrite <- app_assoc.
Qed.

Lemma commandsOfLines_spec (lines commands : list gostring) :
  commandsOfLines commands lines
  = Ok (commands
        ++ List.filter nonEmpty (map commandOf (flat_map lineFragments lines))).
Proof.
  revert commands; induction lines as [|line lines IH]; intros commands;
    cbn [commandsOfLines flat_map].
  - now rewrite app_nil_r.
  - unfold lineFragments at 1.
    destruct (isEmpty (TrimSpace line)); cbn [orb]; [apply IH|].
    destruct (HasPrefix (TrimSpace line) "#") eqn:E; [apply IH|].
    assert (E' : HasPrefix (TrimSpace line) "#!" = false).
    { apply not_true_is_false. intros H.
      apply HasPrefix_iff in H as (r & Hr).
      assert (HasPrefix (TrimSpace line) "#" = true); [|congruence].
      apply HasPrefix_iff. exists ("!" ++ r). exact Hr. }
    rewrite E', commandsOfParts_spec. cbn [bind].
    rewrite IH, map_app, List.filter_app. now rewrite <- app_assoc.
Qed.

Lemma extractCommands_spec (script : gostring) :
  extractCommands script
  = Ok (List.filter nonEmpty (map commandOf (fragments script))).
Proof. apply commandsOfLines_spec. Qed.

(** ** [GetMissingCommands] *)

Lemma missingOfCommands_total tbl (commands : list gostring) :
  forall missing seen,
    exists st, missingOfCommands tbl missing seen commands = Ok st.
Proof.
  induction commands as [|cmd commands IH]; intros missing seen;
    cbn [missingOfCommands]; [eauto|].
  destruct (normalizeCommand_total cmd) as (name & ->). cbn [bind].
  destruct (isEmpty name); [apply IH|].
  destruct (tbl name && negb (seenAt seen name)); apply IH.
Qed.

Lemma missingOfSteps_total tbl (steps : list Step) :
  forall missing seen,
    exists r, missingOfSteps tbl missing seen steps = Ok r.
Proof.
  induction steps as [|step steps IH]; intros missing seen;
    cbn [missingOfSteps]; [eauto|].
  destruct (isEmpty (Run step)); [apply IH|].
  rewrite extractCommands_spec. cbn [bind].
  destruct (missingOfCommands_total tbl
              (List.filter nonEmpty (map commandOf (fragments (Run step))))
              missing seen) as (st & ->).
  cbn [bind]. apply IH.
Qed.

Lemma missingOfSteps_no_command tbl (steps : list Step) :
  (forall step, In step steps -> extractCommands (Run step) = Ok []) ->
  forall missing seen, missingOfSteps tbl missing seen steps = Ok missing.
Proof.
  induction steps as [|step steps IH]; intros H missing seen;
    cbn [missingOfSteps]; [reflexivity|].
  destruct (isEmpty (Run step)).
  - apply IH. intros st Hst. apply H. now right.
  - rewrite (H step) by now left. cbn [bind missingOfCommands fst snd].
    apply IH. intros st Hst. apply H. now right.
Qed.

Lemma dropWhile_all {A} (p : A -> bool) (l : list A) :
  (forall x, In x l -> p x = true) -> dropWhile p l = [].
Proof.
  induction l as [|x l IH]; intros H; simpl; [reflexivity|].
  rewrite (H x) by now left. apply IH. intros y Hy. apply H. now right.
Qed.

Lemma commandOf_assignments (part : gostring) :
  (forall tok, In tok (Fields part) -> Contains tok "=" = true) ->
  commandOf part = [].
Proof.
  intros H. unfold commandOf. now rewrite (dropWhile_all hasEq _ H).
Qed.

Lemma filter_nonEmpty_nil (l : list gostring) :
  (forall x, In x l -> x = []) -> List.filter nonEmpty l = [].
Proof.
  induction l as [|x l IH]; intros H; simpl; [reflexivity|].
  rewrite (H x) by now left. simpl. apply IH. intros y Hy. apply H. now right.
Qed.

Lemma isOneOf_In (field : gostring) (l : list gostring) :
  isOneOf field l = true <-> In field l.
Proof.
  induction l as [|p l IH]; simpl; [easy|].
  destruct (eqs field p) eqn:E.
  - apply eqs_eq in E as ->. split; auto.
  - apply eqs_neq in E. rewrite IH. split; [auto|]. intros [?|?]; congruence.
Qed.

Lemma wrapper_no_eq (field : gostring) :
  isWrapper field = true -> hasEq field = false.
Proof.
  unfold isWrapper. rewrite isOneOf_In. unfold prefixes.
  intros H. repeat (destruct H as [<-|H]; [reflexivity|]). destruct H.
Qed.

Lemma dropWhile_wrappers (ws : list gostring) (c : gostring)
    (rest : list gostring) :
  Forall (fun w => isWrapper w = true) ws -> isWrapper c = false ->
  dropWhile isWrapper (ws ++ c :: rest) = c :: rest.
Proof.
  intros Hws Hc. induction Hws as [|w ws Hw _ IH]; simpl.
  - now rewrite Hc.
  - now rewrite Hw.
Qed.

Lemma commandOf_wrappers (part : gostring) (ws : list gostring)
    (c : gostring) (rest : list gostring) :
  Fields part = ws ++ c :: rest ->
  Forall (fun w => isWrapper w = true) ws -> isWrapper c = false ->
  Contains c "=" = false ->
  commandOf part = c.
Proof.
  intros E Hws Hc Heq. unfold commandOf. rewrite E.
  replace (dropWhile hasEq (ws ++ c :: rest)) with (ws ++ c :: rest).
  - now rewrite dropWhile_wrappers.
  - destruct Hws as [|w ws Hw _]; simpl.
    + unfold hasEq. now rewrite Heq.
    + now rewrite (wrapper_no_eq w Hw).
Qed.

Lemma commandOf_wrapper_assignment (part w a : gostring)
    (rest : list gostring) :
  Fields part = w :: a :: rest ->
  isWrapper w = true -> Contains a "=" = true ->
  commandOf part = a.
Proof.
  intros E Hw Ha. unfold commandOf. rewrite E. simpl.
  rewrite (wrapper_no_eq w Hw). simpl. rewrite Hw.
  destruct (isWrapper a) eqn:Hwa; [|reflexivity].
  apply wrapper_no_eq in Hwa. unfold hasEq in Hwa. congruence.
Qed.

Lemma hd_dropWhile {A} (p : A -> bool) (d : A) (l : list A) :
  hd d (dropWhile p l) = d \/ In (hd d (dropWhile p l)) l.
Proof.
  induction l as [|x l [IH|IH]]; simpl; auto.
  - destruct (p x); simpl; auto.
  - destruct (p x); simpl; auto.
Qed.

Lemma commandOf_word (part : gostring) :
  commandOf part <> [] -> word (commandOf part).
Proof.
  intros Hne. unfold commandOf in *.
  destruct (hd_dropWhile isWrapper [] (dropWhile hasEq (Fields part)))
    as [E|Hin]; [contradiction|].
  pose proof (Fields_words part) as Hw. rewrite List.Forall_forall in Hw.
  apply Hw.
  set (x := hd [] (dropWhile isWrapper (dropWhile hasEq (Fields part)))) in *.
  clearbody x.
  destruct (dropWhile_suffix hasEq (Fields part)) as (l0 & E & _).
  rewrite E. apply in_or_app. now right.
Qed.

Lemma dropWhile_none {A} (p : A -> bool) (l : list A) :
  (forall x, In x l -> p x = false) -> dropWhile p l = l.
Proof.
  destruct l as [|x l]; intros H; simpl; [|rewrite (H x)]; auto. now left.
Qed.

Lemma TrimSpace_Others (w : gostring) :
  scanned (map Other w) -> TrimSpace w = w.
Proof.
  intros H. unfold TrimSpace, dropWhileEnd. rewrite (scan_word w H).
  rewrite (dropWhile_none isSpace (map Other w)).
  - rewrite <- map_rev. rewrite (dropWhile_none isSpace (map Other (rev w))).
    + rewrite <- map_rev, rev_involutive. apply unscan_Others.
    + intros x Hx. apply in_map_iff in Hx as (b & <- & _). reflexivity.
  - intros x Hx. apply in_map_iff in Hx as (b & <- & _). reflexivity.
Qed.

Lemma extractCommands_words (script : gostring) (commands : list gostring) :
  extractCommands script = Ok commands -> Forall word commands.
Proof.
  rewrite extractCommands_spec. intros [= <-].
  apply List.Forall_forall. intros c Hc.
  apply filter_In in Hc as [Hc Hne]. apply in_map_iff in Hc as (part & <- & _).
  apply commandOf_word. unfold nonEmpty in Hne.
  now destruct (commandOf part).
Qed.

(** ** [splitCommandLine] cuts at every operator *)

Lemma TrimSpace_segment (s : gostring) :
  exists a b, s = a ++ TrimSpace s ++ b.
Proof.
  unfold TrimSpace.
  destruct (dropWhile_suffix isSpace (scan s)) as (l0 & E0 & _).
  destruct (dropWhileEnd_prefix isSpace (dropWhile isSpace (scan s)))
    as (l1 & E1 & _).
  exists (unscan l0), (unscan l1).
  rewrite <- !unscan_app, <- E1, <- E0. symmetry. apply unscan_scan.
Qed.

Lemma genSplit_segment (n : nat) (sep s piece : gostring) :
  In piece (genSplit n s sep) -> exists a b, s = a ++ piece ++ b.
Proof.
  revert s; induction n as [|n IH]; intros s; cbn [genSplit].
  - intros [<-|[]]. exists [], []. now rewrite app_nil_r.
  - destruct (Index s sep) as [i|].
    + intros [<-|H].
      * exists [], (drop i s). now rewrite take_drop.
      * apply IH in H as (a & b & E).
        exists (take (i + length sep) s ++ a), b.
        rewrite <- app_assoc, <- E. now rewrite take_drop.
    + intros [<-|[]]. exists [], []. now rewrite app_nil_r.
Qed.

Lemma Index_byte_Some (c : ascii) (s : gostring) (i : nat) :
  Index s [c] = Some i ->
  exists a b, s = a ++ c :: b /\ ~ In c a /\ i = length a.
Proof.
  destruct (first_byte c s) as [H|(a & b & -> & Ha)].
  - now rewrite (Index_byte_notin c s H).
  - rewrite (Index_byte_first c a b Ha). intros [= <-]. eauto.
Qed.

(** No piece of a split at a byte holds that byte. *)
Lemma genSplit_byte_free (c : ascii) (n : nat) (s piece : gostring) :
  length s <= n -> In piece (genSplit n s [c]) -> ~ In c piece.
Proof.
  revert s; induction n as [|n IH]; intros s Hn; cbn [genSplit].
  - intros [<-|[]]. destruct s; [easy | simpl in Hn; lia].
  - destruct (Index s [c]) as [i|] eqn:Ei.
    + apply Index_byte_Some in Ei as (a & b & -> & Ha & ->).
      change (a ++ c :: b) with (a ++ [c] ++ b).
      rewrite take_app_length.
      rewrite app_assoc, drop_app_length' by now rewrite length_app.
      intros [<-|H]; [assumption|].
      apply (IH b); [|assumption].
      rewrite !length_app in Hn. simpl in Hn. lia.
    + intros [<-|[]] Hin.
      apply (Contains_byte c) in Hin. unfold Contains in Hin.
      now rewrite Ei in Hin.
Qed.

Lemma appendTrimmed_In (split newParts : list gostring) (part : gostring) :
  In part (appendTrimmed newParts split) ->
  In part newParts \/ exists s, In s split /\ part = TrimSpace s.
Proof.
  revert newParts; induction split as [|s split IH]; intros newParts;
    cbn [appendTrimmed]; [auto|].
  destruct (negb (isEmpty (TrimSpace s))); intros H; apply IH in H.
  - destruct H as [H|(s' & Hs' & ->)].
    + apply in_app_or in H as [H|[<-|[]]]; [auto|].
      right. exists s. split; [now left | reflexivity].
    + right. exists s'. split; [now right | reflexivity].
  - destruct H as [H|(s' & Hs' & ->)]; [auto|].
    right. exists s'. split; [now right | reflexivity].
Qed.

Lemma splitParts_In (sep : gostring) (parts newParts : list gostring)
    (part : gostring) :
  In part (splitParts sep newParts parts) ->
  In part newParts
  \/ exists p s, In p parts /\ In s (Split p sep) /\ part = TrimSpace s.
Proof.
  revert newParts; induction parts as [|p parts IH]; intros newParts;
    cbn [splitParts]; [auto|].
  intros H. apply IH in H as [H|(p' & s & Hp' & Hs & ->)].
  - apply appendTrimmed_In in H as [H|(s & Hs & ->)]; [auto|].
    right. exists p, s. split; [now left | auto].
  - right. exists p', s. split; [now right | auto].
Qed.

Lemma not_In_segment (c : ascii) (s a t b : gostring) :
  s = a ++ t ++ b -> ~ In c s -> ~ In c t.
Proof.
  intros -> H Hin. apply H. apply in_or_app. right.
  apply in_or_app. now left.
Qed.

(** Once the parts are free of a byte they stay so, and a split at the
    byte makes them so. *)
Lemma splitBy_byte_free (c : ascii) (seps : list gostring) :
  forall parts : list gostring,
    In [c] seps \/ (forall p, In p parts -> ~ In c p) ->
    forall part, In part (splitBy seps parts) -> ~ In c part.
Proof.
  induction seps as [|sep seps IH]; intros parts H part; cbn [splitBy].
  - destruct H as [[]|H]. apply H.
  - apply IH.
    destruct (List.list_eq_dec ascii_dec sep [c]) as [->|Hsep].
    + right. intros p Hp.
      apply splitParts_In in Hp as [[]|(p0 & s & _ & Hs & ->)].
      destruct (TrimSpace_segment s) as (a & b & E).
      apply (not_In_segment c s a _ b E).
      now apply (genSplit_byte_free c (length p0) p0).
    + destruct H as [[H|H]|H]; [congruence | now left | right].
      intros p Hp.
      apply splitParts_In in Hp as [[]|(p0 & s & Hp0 & Hs & ->)].
      destruct (TrimSpace_segment s) as (a & b & E).
      apply (not_In_segment c s a _ b E).
      apply genSplit_segment in Hs as (a' & b' & E').
      apply (not_In_segment c p0 a' s b' E'). now apply H.
Qed.

Lemma splitCommandLine_operator_free (line part : gostring) (c : ascii) :
  In part (splitCommandLine line) ->
  In c ["|"; ";"; ">"; "<"]%char -> ~ In c part.
Proof.
  intros Hp Hc. apply (splitBy_byte_free c separators [line]); [|assumption].
  left. unfold separators.
  destruct Hc as [<-|[<-|[<-|[<-|[]]]]]; simpl; auto 10.
Qed.

(** ** Regular expressions *)

Lemma lastOr_app (prev : option ascii) (w1 w2 : gostring) :
  lastOr prev (w1 ++ w2) = lastOr (lastOr prev w1) w2.
Proof. revert prev; induction w1; intros; simpl; auto. Qed.

Lemma matchLit_iff l k prev s :
  matchLit l k prev s = true <->
  exists rest, s = l ++ rest /\ k (lastOr prev l) rest = true.
Proof.
  revert prev s; induction l as [|c l IH]; intros prev s; simpl.
  - split; [eauto | now intros (rest & -> & H)].
  - destruct s as [|x s]; [split; [easy | now intros (? & ? & _)]|].
    rewrite andb_true_iff, Ascii.eqb_eq, IH. split.
    + intros (-> & rest & -> & H); eauto.
    + intros (rest & [= -> ->] & H); eauto.
Qed.

Lemma matchPlus_iff f k s :
  matchPlus f k s = true <->
  exists w rest, s = w ++ rest /\ w <> [] /\ forallb f w = true
                 /\ k (lastOr None w) rest = true.
Proof.
  induction s as [|x s IH]; simpl.
  - split; [easy|]. intros (w & rest & E & Hne & _).
    destruct w; [easy | discriminate].
  - rewrite andb_true_iff, orb_true_iff, IH. split.
    + intros (Hx & [Hk | (w & rest & -> & Hne & Hf & Hk)]).
      * exists [x], s. simpl. now rewrite Hx.
      * exists (x :: w), rest. simpl. rewrite Hx, Hf.
        destruct w; [easy|]. auto.
    + intros (w & rest & E & Hne & Hf & Hk).
      destruct w as [|y w]; [easy|]. injection E as -> ->.
      simpl in Hf. apply andb_true_iff in Hf as [Hy Hf].
      split; [assumption|].
      destruct w as [|z w]; [now left|]. right.
      exists (z :: w), rest. repeat split; auto; easy.
Qed.

Lemma lastOr_nonempty (prev : option ascii) (w : gostring) :
  w <> [] -> lastOr prev w = lastOr None w.
Proof. destruct w; [easy | reflexivity]. Qed.

(** The matcher finds what the pattern denotes. *)
Lemma matchHere_iff r k prev s :
  matchHere r k prev s = true <->
  exists w rest, s = w ++ rest /\ denotes r prev w rest
                 /\ k (lastOr prev w) rest = true.
Proof.
  revert k prev s; induction r as [l|f|r1 IH1 r2 IH2|r1 IH1 r2 IH2|f|];
    intros k prev s; simpl.
  - rewrite matchLit_iff. split.
    + intros (rest & -> & H); eauto.
    + intros (w & rest & -> & -> & H); eauto.
  - destruct s as [|x s].
    + split; [easy|]. intros (w & rest & E & (c & -> & _) & _). discriminate.
    + rewrite andb_true_iff. split.
      * intros [Hx Hk]. exists [x], s. eauto.
      * intros (w & rest & E & (c & -> & Hc) & Hk).
        injection E as -> ->. auto.
  - rewrite IH1. split.
    + intros (w1 & rest1 & -> & H1 & H2).
      apply IH2 in H2 as (w2 & rest & -> & H2 & Hk).
      exists (w1 ++ w2), rest. rewrite <- app_assoc, lastOr_app. eauto 8.
    + intros (w & rest & -> & (w1 & w2 & -> & H1 & H2) & Hk).
      exists w1, (w2 ++ rest). rewrite <- app_assoc. repeat split; auto.
      apply IH2. rewrite lastOr_app in Hk. eauto.
  - rewrite orb_true_iff, IH1, IH2. split.
    + intros [(w & rest & ? & ? & ?)|(w & rest & ? & ? & ?)]; eauto 8.
    + intros (w & rest & ? & [?|?] & ?); eauto 8.
  - rewrite matchPlus_iff. split.
    + intros (w & rest & -> & Hne & Hf & Hk).
      exists w, rest. rewrite (lastOr_nonempty prev w Hne). auto.
    + intros (w & rest & -> & (Hne & Hf) & Hk).
      exists w, rest. rewrite (lastOr_nonempty prev w Hne) in Hk. auto.
  - rewrite andb_true_iff. split.
    + intros [Hb Hk]. exists [], s. auto.
    + intros (w & rest & -> & (-> & Hb) & Hk). auto.
Qed.

Lemma matchFrom_iff r prev s :
  matchFrom r prev s = true <->
  exists pre w post, s = pre ++ w ++ post
                     /\ denotes r (lastOr prev pre) w post.
Proof.
  revert prev; induction s as [|c s IH]; intros prev; simpl;
    rewrite orb_true_iff, matchHere_iff.
  - split.
    + intros [(w & rest & E & H & _)|]; [|easy]. exists [], w, rest. auto.
    + intros (pre & w & post & E & H). left.
      destruct pre; [|discriminate]. simpl in *. eauto.
  - rewrite IH. split.
    + intros [(w & rest & E & H & _)|(pre & w & post & -> & H)].
      * exists [], w, rest. auto.
      * exists (c :: pre), w, post. auto.
    + intros (pre & w & post & E & H). destruct pre as [|x pre]; simpl in *.
      * left. eauto.
      * injection E as -> ->. right. eauto.
Qed.

Lemma MatchString_iff r s :
  MatchString r s = true <->
  exists pre w post, s = pre ++ w ++ post
                     /\ denotes r (lastOr None pre) w post.
Proof. apply matchFrom_iff. Qed.

(** ** The container command patterns *)

Lemma denotes_alt_Lit (a : gostring) (l : list gostring) prev w rest :
  denotes (alt (Lit a) (map Lit l)) prev w rest <-> In w (a :: l).
Proof.
  revert a; induction l as [|b l IH]; intros a; simpl.
  - split; [auto | intros [?|[]]; auto].
  - change (denotes (alt (Lit b) (map Lit l)) prev w rest)
      with ((fun a => denotes (alt (Lit a) (map Lit l)) prev w rest) b).
    simpl. rewrite IH. simpl. split; intros [?|?]; auto.
Qed.

Lemma xorb_word_r (b : bool) : xorb b true = true <-> b = false.
Proof. destruct b; simpl; split; congruence. Qed.

Lemma xorb_word_l (b : bool) : xorb true b = true <-> b = false.
Proof. destruct b; simpl; split; congruence. Qed.

Lemma subcommand_ends_in_word (p : option ascii) (sub : gostring) :
  In sub dockerSubcommands -> wordAt (lastOr p sub) = true.
Proof.
  unfold dockerSubcommands.
  intros H. repeat (destruct H as [<-|H]; [reflexivity|]). destruct H.
Qed.

Lemma patternSubcommand_iff prev w post :
  denotes patternSubcommand prev w post <->
  atWordBoundaries prev post
  /\ exists sep sub, spaceOrHyphen sep = true /\ In sub dockerSubcommands
                     /\ w = "docker" ++ sep :: sub.
Proof.
  unfold patternSubcommand, atWordBoundaries.
  cbn [cat denotes]. split.
  - intros (w1 & w2 & -> & (-> & Hb1) & w3 & w4 & -> & -> & w5 & w6 & ->
            & (c & -> & Hc) & w7 & w8 & -> & Halt & -> & Hb2).
    apply (denotes_alt_Lit "build"
             [str "run"; str "exec"; str "ps"; str "pull"; str "push";
              str "tag"; str "login"]) in Halt.
    change (In w7 dockerSubcommands) in Halt.
    cbn [lastOr app] in Hb1, Hb2.
    apply xorb_word_r in Hb1.
    rewrite ?lastOr_app, subcommand_ends_in_word in Hb2 by assumption.
    apply xorb_word_l in Hb2.
    rewrite app_nil_r. repeat split; auto. exists c, w7. auto.
  - intros ((Hb1 & Hb2) & sep & sub & Hsep & Hsub & ->).
    exists [], ("docker" ++ sep :: sub). split; [reflexivity|]. split.
    { split; [reflexivity|]. now apply xorb_word_r. }
    exists (str "docker"), (sep :: sub). split; [reflexivity|].
    split; [reflexivity|].
    exists [sep], sub. split; [reflexivity|]. split; [eauto|].
    exists sub, []. split; [now rewrite app_nil_r|]. split.
    + now apply (denotes_alt_Lit "build"
             [str "run"; str "exec"; str "ps"; str "pull"; str "push";
              str "tag"; str "login"]).
    + split; [reflexivity|]. cbn [lastOr app].
      rewrite ?lastOr_app, subcommand_ends_in_word by assumption.
      now apply xorb_word_l.
Qed.

Lemma patternHyphenCompose_iff prev w post :
  denotes patternHyphenCompose prev w post <->
  atWordBoundaries prev post /\ w = "docker-compose".
Proof.
  unfold patternHyphenCompose, atWordBoundaries.
  cbn [cat denotes]. split.
  - intros (w1 & w2 & -> & (-> & Hb1) & w3 & w4 & -> & -> & -> & Hb2).
    cbn [lastOr app] in Hb1, Hb2. rewrite ?lastOr_app in Hb2.
    apply xorb_word_r in Hb1. apply xorb_word_l in Hb2.
    rewrite app_nil_r. auto.
  - intros ((Hb1 & Hb2) & ->).
    exists [], (str "docker-compose"). split; [reflexivity|]. split.
    { split; [reflexivity|]. now apply xorb_word_r. }
    exists (str "docker-compose"), []. split; [now rewrite app_nil_r|].
    split; [reflexivity|]. split; [reflexivity|].
    cbn [lastOr app]. rewrite ?lastOr_app. now apply xorb_word_l.
Qed.

Lemma patternSpaceCompose_iff prev w post :
  denotes patternSpaceCompose prev w post <->
  atWordBoundaries prev post
  /\ exists ws, ws <> [] /\ forallb perlSpace ws = true
                /\ w = "docker" ++ ws ++ "compose".
Proof.
  unfold patternSpaceCompose, atWordBoundaries.
  cbn [cat denotes]. split.
  - intros (w1 & w2 & -> & (-> & Hb1) & w3 & w4 & -> & -> & w5 & w6 & ->
            & (Hne & Hws) & w7 & w8 & -> & -> & -> & Hb2).
    cbn [lastOr app] in Hb1, Hb2. rewrite ?lastOr_app in Hb2.
    apply xorb_word_r in Hb1. apply xorb_word_l in Hb2.
    rewrite app_nil_r. repeat split; auto. exists w5. auto.
  - intros ((Hb1 & Hb2) & ws & Hne & Hws & ->).
    exists [], ("docker" ++ ws ++ "compose"). split; [reflexivity|]. split.
    { split; [reflexivity|]. now apply xorb_word_r. }
    exists (str "docker"), (ws ++ "compose"). split; [reflexivity|].
    split; [reflexivity|].
    exists ws, (str "compose"). split; [reflexivity|]. split; [auto|].
    exists (str "compose"), []. split; [now rewrite app_nil_r|].
    split; [reflexivity|]. split; [reflexivity|].
    cbn [lastOr app]. rewrite ?lastOr_app. now apply xorb_word_l.
Qed.

Lemma anyPatternMatches_iff (ps : list Regexp) (t : gostring) :
  anyPatternMatches ps t = true <->
  exists p, In p ps /\ MatchString p t = true.
Proof.
  induction ps as [|p ps IH]; simpl.
  - split; [easy | intros (p & [] & _)].
  - destruct (MatchString p t) eqn:E.
    + split; eauto.
    + rewrite IH. split.
      * intros (q & Hq & Hm); eauto.
      * intros (q & [<-|Hq] & Hm); [congruence | eauto].
Qed.

Lemma containerCommandPatterns_iff (t : gostring) :
  anyPatternMatches containerCommandPatterns t = true <->
  dockerInvocation dockerSubcommands t.
Proof.
  rewrite anyPatternMatches_iff.
  unfold dockerInvocation, containerCommandPatterns.
  split.
  - intros (p & [<-|[<-|[<-|[]]]] & Hm);
      apply MatchString_iff in Hm as (pre & w & post & -> & Hd);
      exists pre, post.
    + apply patternSubcommand_iff in Hd
        as ((Hb1 & Hb2) & sep & sub & Hsep & Hsub & ->).
      repeat split; auto. left. exists sep, sub.
      repeat split; auto; now rewrite <- ?app_assoc.
    + apply patternHyphenCompose_iff in Hd as ((Hb1 & Hb2) & ->).
      repeat split; auto.
    + apply patternSpaceCompose_iff in Hd
        as ((Hb1 & Hb2) & ws & Hne & Hws & ->).
      repeat split; auto. right; right. exists ws.
      repeat split; auto; now rewrite <- ?app_assoc.
  - intros (pre & post & Hb1 & Hb2 & [(sep & sub & Hsep & Hsub & ->)
                                      |[->|(ws & Hne & Hws & ->)]]).
    + exists patternSubcommand. split; [simpl; auto|].
      apply MatchString_iff. exists pre, ("docker" ++ sep :: sub), post.
      split; [now rewrite <- ?app_assoc|].
      apply patternSubcommand_iff. split; [split; auto|]. eauto.
    + exists patternHyphenCompose. split; [simpl; auto|].
      apply MatchString_iff. exists pre, (str "docker-compose"), post.
      split; [reflexivity|].
      apply patternHyphenCompose_iff. split; [split; auto|]. reflexivity.
    + exists patternSpaceCompose. split; [simpl; auto|].
      apply MatchString_iff. exists pre, ("docker" ++ ws ++ "compose"), post.
      split; [now rewrite <- ?app_assoc|].
      apply patternSpaceCompose_iff. split; [split; auto|]. eauto.
Qed.

Lemma dockerInvocation_nonempty (subs : list gostring) :
  ~ dockerInvocation subs [].
Proof.
  intros (pre & post & _ & _ & [(sep & sub & _ & _ & E)|[E|(ws & _ & _ & E)]]);
    symmetry in E; apply app_eq_nil in E as [_ E]; discriminate.
Qed.

Lemma stepsRunDocker_iff unicodeLower (steps : list Step) :
  stepsRunDocker unicodeLower steps = true <->
  exists step, In step steps
               /\ dockerInvocation dockerSubcommands
                    (ToLower unicodeLower (Run step)).
Proof.
  induction steps as [|step steps IH]; cbn [stepsRunDocker In].
  - split; [easy | intros (step & [] & _)].
  - destruct (Run step) as [|c r] eqn:Er; cbn [isEmpty].
    + rewrite IH. split.
      * intros (st & Hin & H); eauto.
      * intros (st & [<-|Hin] & H); [|eauto].
        rewrite Er in H. now apply dockerInvocation_nonempty in H.
    + destruct (anyPatternMatches containerCommandPatterns
                  (ToLower unicodeLower (c :: r))) eqn:E.
      * split; [intros _ | easy]. exists step. split; [auto|].
        rewrite Er. now apply containerCommandPatterns_iff.
      * rewrite IH. split.
        -- intros (st & Hin & H); eauto.
        -- intros (st & [<-|Hin] & H); [|eauto].
           rewrite Er in H. apply containerCommandPatterns_iff in H.
           congruence.
Qed.

Lemma spaceOrHyphen_not_word (c : ascii) :
  spaceOrHyphen c = true -> isWordChar c = false.
Proof.
  destruct c as [[] [] [] [] [] [] [] []]; vm_compute; congruence.
Qed.

Lemma perlSpace_not_word (c : ascii) :
  perlSpace c = true -> isWordChar c = false.
Proof.
  destruct c as [[] [] [] [] [] [] [] []]; vm_compute; congruence.
Qed.

(** ** C1: the source-runner check *)

Lemma anyItemIs_iff (label : gostring) (v : list any) :
  anyItemIs label v = true <-> In (Str label) v.
Proof.
  induction v as [|item v IH]; simpl; [easy|].
  destruct item as [|s| | | |]; rewrite ?IH;
    try (split; [now right | intros [[=]|]; easy]).
  destruct (eqs s label) eqn:E.
  - apply eqs_eq in E as ->. split; auto.
  - apply eqs_neq in E. rewrite IH. split; [now right|].
    intros [[= ->]|]; easy.
Qed.

Lemma IsUbuntuLatest_iff (j : Job) :
  IsUbuntuLatest j = true <->
  RunsOn j = Str "ubuntu-latest" \/
  exists v, RunsOn j = Slice v /\ In (Str "ubuntu-latest") v.
Proof.
  unfold IsUbuntuLatest. destruct (RunsOn j) as [|s| | |v|].
  all: try (split; [easy | intros [[=]|[v' [[=] _]]]]).
  - rewrite eqs_eq. split.
    + intros ->; now left.
    + intros [[=]|[v [[=] _]]]; auto.
  - rewrite anyItemIs_iff. split.
    + intros H; right; eauto.
    + intros [[=]|[v' [[= <-] H]]]; auto.
Qed.

Lemma app_neq_self {A} (l r : list A) : r <> [] -> l ++ r <> l.
Proof.
  intros Hr E. apply Hr.
  apply (app_inv_head l). now rewrite app_nil_r.
Qed.

(** C1.  The source-runner check holds exactly when the runner spec is the
    string [ubuntu-latest] or a sequence with that string among its items;
    the comparison is exact and case-sensitive, so a label that only starts
    with [ubuntu-latest] (such as [ubuntu-latest-xl]) or that differs in
    case does not pass; with a nil runner spec the check fails and the job
    is not eligible. *)
Theorem C1_source_runner_check :
  (forall j : Job,
     IsUbuntuLatest j = true <->
     RunsOn j = Str "ubuntu-latest" \/
     exists v, RunsOn j = Slice v /\ In (Str "ubuntu-latest") v)
  /\ (forall (suffix : gostring) steps services container,
        suffix <> [] ->
        IsUbuntuLatest
          (mkJob (Str ("ubuntu-latest" ++ suffix)) steps services container)
        = false
        /\ IsUbuntuLatest
             (mkJob (Slice [Str ("ubuntu-latest" ++ suffix)]) steps services
                container)
           = false)
  /\ (forall steps services container,
        IsUbuntuLatest (mkJob (Str "ubuntu-latest-xl") steps services container)
        = false
        /\ IsUbuntuLatest (mkJob (Str "Ubuntu-Latest") steps services container)
           = false)
  /\ (forall unicodeLower (j : Job),
        RunsOn j = Nil ->
        IsUbuntuLatest j = false /\ isEligible unicodeLower j = false).
Proof.
  split; [exact IsUbuntuLatest_iff|].
  split; [|split].
  - intros suffix steps services container Hs.
    assert (Hne : (str "ubuntu-latest" ++ suffix) <> str "ubuntu-latest")
      by now apply app_neq_self.
    split.
    + unfold IsUbuntuLatest; simpl RunsOn. now apply eqs_neq.
    + apply not_true_is_false. rewrite IsUbuntuLatest_iff; simpl RunsOn.
      intros [[=]|[v [[= <-] [[= E]|[]]]]]. now apply Hne.
  - intros; split; reflexivity.
  - intros unicodeLower j H. unfold isEligible, IsUbuntuLatest.
    now rewrite H.
Qed.

(** C1 at the label [ubuntu-latest-xl] and at a job without runner spec. *)
Lemma C1_source_runner_check_witness :
  IsUbuntuLatest (mkJob (Str "ubuntu-latest-xl") [] Nil Nil) = false
  /\ IsUbuntuLatest (mkJob Nil [mkStep "echo hello" ""] Nil Nil) = false
  /\ isEligible noCaseTables (mkJob Nil [mkStep "echo hello" ""] Nil Nil)
     = false.
Proof.
  destruct C1_source_runner_check as (_ & Hpre & _ & Hnil).
  split.
  - apply (Hpre (str "-xl") [] Nil Nil). discriminate.
  - apply (Hnil noCaseTables (mkJob Nil [mkStep "echo hello" ""] Nil Nil)).
    reflexivity.
Defined.

(** ** C2: container commands *)

(** C2, as stated, fails on a job whose shell step is [docker list]: the
    step holds [docker], a space and the claimed subcommand [list], and
    [HasDockerCommands] does not flag the job. *)
Lemma C2_counterexample :
  ~ (HasDockerCommands noCaseTables (shellJob "docker list") = true <->
     exists step, In step (Steps (shellJob "docker list"))
                  /\ dockerInvocation claimedSubcommands
                       (ToLower noCaseTables (Run step))).
Proof.
  intros [_ H].
  assert (E : HasDockerCommands noCaseTables (shellJob "docker list") = true).
  { apply H. exists (mkStep "docker list" []). split; [simpl; auto|].
    exists [], []. split; [reflexivity|]. split; [reflexivity|].
    left. exists " "%char, (str "list"). split; [reflexivity|].
    split; [simpl; auto 10 | reflexivity]. }
  vm_compute in E. discriminate.
Qed.

(** C2, amended.  [HasDockerCommands] flags a job exactly when the text of
    some shell step, put in lower case, holds: [docker], then one
    white-space byte or a hyphen, then one of build, run, exec, ps, pull,
    push, tag, login; or [docker-compose]; or [docker], white space and
    [compose]; in each case with no word character just before and just
    after.  So [docker ps] is flagged and [docker list] is not, and
    [docker] followed by two spaces and [build] is not. *)
Theorem C2_docker_commands :
  dockerSubcommands
  = [str "build"; str "run"; str "exec"; str "ps"; str "pull"; str "push";
     str "tag"; str "login"]
  /\ (forall unicodeLower (j : Job),
        HasDockerCommands unicodeLower j = true <->
        exists step, In step (Steps j)
                     /\ dockerInvocation dockerSubcommands
                          (ToLower unicodeLower (Run step)))
  /\ (forall unicodeLower,
        HasDockerCommands unicodeLower (shellJob "docker ps") = true
        /\ HasDockerCommands unicodeLower (shellJob "docker list") = false
        /\ HasDockerCommands unicodeLower (shellJob "docker-run app") = true
        /\ HasDockerCommands unicodeLower (shellJob "docker  build .")
           = false
        /\ HasDockerCommands unicodeLower (shellJob "Docker-Compose up")
           = true
        /\ HasDockerCommands unicodeLower (shellJob "docker   compose up")
           = true).
Proof.
  split; [reflexivity|]. split.
  - intros unicodeLower j. apply stepsRunDocker_iff.
  - intros unicodeLower. repeat split; reflexivity.
Qed.

(** ** C3: word boundaries and letter case *)

(** C3.  A job is not flagged when, in each of its shell steps, every
    occurrence of [docker] in the text put in lower case has a word
    character just before it or just after it, as in [echo DOCKER_BUILD];
    a job is flagged when the text of a step, put in lower case, holds
    [docker build] with no word character just before and just after, as in
    [DOCKER BUILD .] or [sudo Docker Build -t app .]. *)
Theorem C3_word_boundaries :
  (forall unicodeLower (j : Job),
     (forall step pre post,
        In step (Steps j) ->
        ToLower unicodeLower (Run step) = pre ++ "docker" ++ post ->
        wordAt (lastOr None pre) = true \/ wordAt (head post) = true) ->
     HasDockerCommands unicodeLower j = false)
  /\ (forall unicodeLower,
        HasDockerCommands unicodeLower (shellJob "echo DOCKER_BUILD") = false)
  /\ (forall unicodeLower (j : Job) step pre post,
        In step (Steps j) ->
        ToLower unicodeLower (Run step) = pre ++ "docker build" ++ post ->
        wordAt (lastOr None pre) = false -> wordAt (head post) = false ->
        HasDockerCommands unicodeLower j = true)
  /\ (forall unicodeLower,
        HasDockerCommands unicodeLower (shellJob "DOCKER BUILD .") = true
        /\ HasDockerCommands unicodeLower
             (shellJob "sudo Docker Build -t app .") = true).
Proof.
  split; [|split; [|split]].
  - intros unicodeLower j H. apply not_true_is_false. intros Hd.
    apply stepsRunDocker_iff in Hd
      as (step & Hin & pre & post & Hb1 & Hb2 & Hd).
    destruct Hd as [(sep & sub & Hsep & Hsub & E)|[E|(ws & Hne & Hws & E)]].
    + destruct (H step pre (sep :: sub ++ post) Hin E) as [Hp|Hp];
        [congruence|].
      simpl in Hp. now rewrite (spaceOrHyphen_not_word sep Hsep) in Hp.
    + destruct (H step pre ("-compose" ++ post) Hin) as [Hp|Hp];
        [now rewrite E | congruence | discriminate].
    + destruct (H step pre (ws ++ "compose" ++ post) Hin E) as [Hp|Hp];
        [congruence|].
      destruct ws as [|x ws]; [easy|]. simpl in Hp, Hws.
      apply andb_true_iff in Hws as [Hx _].
      now rewrite (perlSpace_not_word x Hx) in Hp.
  - intros unicodeLower. reflexivity.
  - intros unicodeLower j step pre post Hin E Hb1 Hb2.
    apply stepsRunDocker_iff. exists step. split; [assumption|].
    exists pre, post. split; [assumption|]. split; [assumption|].
    left. exists " "%char, (str "build"). split; [reflexivity|].
    split; [simpl; auto|]. exact E.
  - intros unicodeLower. split; reflexivity.
Qed.

(** C3 at [mydocker build], not flagged, and at a step with [Docker Build],
    flagged. *)
Lemma C3_word_boundaries_witness :
  HasDockerCommands noCaseTables (shellJob "mydocker build") = false
  /\ HasDockerCommands noCaseTables
       (mkJob (Str "ubuntu-latest")
          [mkStep "cd app && Docker Build -t app ." []] Nil Nil) = true.
Proof.
  destruct C3_word_boundaries as (Hno & _ & Hyes & _). split.
  - apply (Hno noCaseTables (shellJob "mydocker build")).
    intros step pre post [<-|[]] E.
    change (ToLower noCaseTables (Run (mkStep "mydocker build" [])))
      with (str "mydocker build") in E.
    unfold str in E; simpl in E.
    destruct pre as [|a0 [|a1 [|a2 pre]]]; simpl in E; try discriminate E.
    + left. injection E as <- <- _. reflexivity.
    + exfalso. injection E as _ _ _ E.
      do 11 (destruct pre as [|? pre]; simpl in E;
             [discriminate E | injection E as _ E]).
      destruct pre; discriminate E.
  - apply (Hyes noCaseTables _ (mkStep "cd app && Docker Build -t app ." [])
             (str "cd app && ") (str " -t app .")).
    + simpl; auto.
    + reflexivity.
    + reflexivity.
    + reflexivity.
Defined.

(** ** C4: container actions *)

Lemma stepsUseContainerAction_iff (steps : list Step) :
  stepsUseContainerAction steps = true <->
  exists step, In step steps /\ HasPrefix (Uses step) "docker" = true.
Proof.
  induction steps as [|step steps IH]; cbn [stepsUseContainerAction In].
  - split; [easy | intros [step [[] _]]].
  - destruct (Uses step) as [|c u] eqn:Eu; cbn [isEmpty].
    + rewrite IH. split.
      * intros [st [Hin Hp]]; eauto.
      * intros [st [[<-|Hin] Hp]]; [now rewrite Eu in Hp | eauto].
    + unfold containerActionPrefixes, hasAnyPrefix.
      destruct (HasPrefix (c :: u) "docker") eqn:E.
      * split; [intros _; exists step; rewrite Eu; auto | easy].
      * rewrite IH. split.
        -- intros [st [Hin Hp]]; eauto.
        -- intros [st [[<-|Hin] Hp]]; [rewrite Eu in Hp; congruence | eauto].
Qed.

(** C4.  [containerActionPrefixes] holds the one literal [docker], and
    [HasContainerActions] flags a job exactly when the action reference of
    some step starts with it; so a step whose reference is [docker]
    followed by anything is flagged, in particular the scheme form
    [docker://target] and the organization form [docker/name@ref]. *)
Theorem C4_container_action_prefix :
  containerActionPrefixes = [str "docker"]
  /\ (forall j : Job,
        HasContainerActions j = true <->
        exists step, In step (Steps j)
                     /\ HasPrefix (Uses step) "docker" = true)
  /\ (forall (j : Job) (step : Step) (rest : gostring),
        In step (Steps j) -> Uses step = "docker" ++ rest ->
        HasContainerActions j = true)
  /\ (forall (j : Job) (step : Step) (target : gostring),
        In step (Steps j) -> Uses step = "docker://" ++ target ->
        HasContainerActions j = true)
  /\ (forall (j : Job) (step : Step) (name ref : gostring),
        In step (Steps j) -> Uses step = "docker/" ++ name ++ "@" ++ ref ->
        HasContainerActions j = true).
Proof.
  assert (H : forall (j : Job) (step : Step) (rest : gostring),
             In step (Steps j) -> Uses step = "docker" ++ rest ->
             HasContainerActions j = true).
  { intros j step rest Hin Hu. apply stepsUseContainerAction_iff.
    exists step; split; [assumption|]. apply HasPrefix_iff. eauto. }
  split; [reflexivity|]. split; [|split; [exact H|split]].
  - intros j. apply stepsUseContainerAction_iff.
  - intros j step target Hin Hu. now apply (H j step ("://" ++ target)).
  - intros j step name ref Hin Hu.
    now apply (H j step ("/" ++ name ++ "@" ++ ref)).
Qed.

(** C4 at the two forms the tests use. *)
Lemma C4_container_action_prefix_witness :
  HasContainerActions
    (mkJob (Str "ubuntu-latest")
       [mkStep "" "actions/checkout@v4"; mkStep "" "docker://alpine:latest"]
       Nil Nil) = true
  /\ HasContainerActions
       (mkJob (Str "ubuntu-latest")
          [mkStep "" "docker/build-push-action@v6"] Nil Nil) = true.
Proof.
  destruct C4_container_action_prefix as (_ & _ & _ & Hscheme & Horg).
  split.
  - apply (Hscheme _ (mkStep "" "docker://alpine:latest") "alpine:latest");
      [simpl; auto | reflexivity].
  - apply (Horg _ (mkStep "" "docker/build-push-action@v6")
             "build-push-action" "v6"); [simpl; auto | reflexivity].
Defined.

(** ** C5: service containers *)

(** C5, as stated, fails on a job whose [services] field is a mapping
    without entries: the field is present and empty, and [HasServices]
    answers true. *)
Lemma C5_counterexample :
  let j := mkJob (Str "ubuntu-latest") [mkStep "echo hello" ""] (Map []) Nil in
  presentAndNonEmpty (Services j) = false /\ HasServices j = true.
Proof. split; reflexivity. Qed.

(** C5, amended.  [HasServices] returns true exactly when the services
    field is not nil; a mapping that is present and empty gives true; and
    the answer is the same for any two values that are not nil, so what the
    field holds is not inspected. *)
Theorem C5_services_present :
  (forall j : Job, HasServices j = true <-> Services j <> Nil)
  /\ (forall runsOn steps container,
        HasServices (mkJob runsOn steps (Map []) container) = true)
  /\ (forall runsOn steps container (v v' : any),
        v <> Nil -> v' <> Nil ->
        HasServices (mkJob runsOn steps v container)
        = HasServices (mkJob runsOn steps v' container)).
Proof.
  assert (H : forall j : Job, HasServices j = true <-> Services j <> Nil).
  { intros j. unfold HasServices. destruct (Services j); simpl; split; easy. }
  split; [exact H|]. split; [reflexivity|].
  intros runsOn steps container v v' Hv Hv'.
  destruct v, v'; try reflexivity; contradiction.
Qed.

(** C5 at a mapping with one service and at the empty mapping. *)
Lemma C5_services_present_witness :
  HasServices
    (mkJob (Str "ubuntu-latest") [] (Map [(str "postgres", Map [])]) Nil)
  = HasServices (mkJob (Str "ubuntu-latest") [] (Map []) Nil).
Proof.
  destruct C5_services_present as (_ & _ & H).
  apply (H (Str "ubuntu-latest") [] Nil (Map [(str "postgres", Map [])])
           (Map [])); discriminate.
Defined.

(** ** C6: the scanner never fails *)

(** C6.  On every input the scanner returns a value, with no panic and no
    loop cut short: [extractCommandFromPart] returns the command of the
    fragment, empty when the fragment has none; [normalizeCommand] returns
    a name; [extractCommands] returns the commands of the fragments that
    have one, a fragment without a command adding nothing; and
    [GetMissingCommands] returns a list for every job and every table.
    The eligibility predicates are total functions of the job, written
    with bounded loops only and without indexing. *)
Theorem C6_scanner_total :
  (forall part : gostring, extractCommandFromPart part = Ok (commandOf part))
  /\ (forall cmd : gostring, exists name, normalizeCommand cmd = Ok name)
  /\ (forall script : gostring,
        exists commands,
          extractCommands script = Ok commands
          /\ commands
             = List.filter nonEmpty (map commandOf (fragments script))
          /\ Forall (fun c => c <> []) commands)
  /\ (forall (IsMissingInSlim : gostring -> bool) (j : Job),
        exists missing, GetMissingCommands IsMissingInSlim j = Ok missing).
Proof.
  split; [exact extractCommandFromPart_spec|].
  split; [exact normalizeCommand_total|]. split.
  - intros script. eexists. split; [apply extractCommands_spec|].
    split; [reflexivity|]. apply List.Forall_forall. intros c Hc.
    apply filter_In in Hc as [_ Hne]. now destruct c.
  - intros tbl j. unfold GetMissingCommands.
    destruct (IsUbuntuLatest j); cbn [negb]; [|eauto].
    apply missingOfSteps_total.
Qed.

(** ** C7: scripts of assignments *)

(** C7.  A fragment whose fields all contain [=] yields no command; so for
    an [ubuntu-latest] job in which every field of every fragment of every
    shell step contains [=], [GetMissingCommands] returns the empty list,
    as for the script [FOO=bar BAZ=qux]. *)
Theorem C7_only_assignments :
  (forall part : gostring,
     (forall tok, In tok (Fields part) -> Contains tok "=" = true) ->
     extractCommandFromPart part = Ok [])
  /\ (forall (IsMissingInSlim : gostring -> bool) (j : Job),
        IsUbuntuLatest j = true ->
        (forall step part tok,
           In step (Steps j) -> In part (fragments (Run step)) ->
           In tok (Fields part) -> Contains tok "=" = true) ->
        GetMissingCommands IsMissingInSlim j = Ok [])
  /\ (forall IsMissingInSlim : gostring -> bool,
        GetMissingCommands IsMissingInSlim (shellJob "FOO=bar BAZ=qux")
        = Ok []).
Proof.
  split; [|split].
  - intros part H. rewrite extractCommandFromPart_spec.
    fold (commandOf part). now rewrite commandOf_assignments.
  - intros tbl j Hu H. unfold GetMissingCommands. rewrite Hu. cbn [negb].
    apply missingOfSteps_no_command. intros step Hstep.
    rewrite extractCommands_spec. f_equal. apply filter_nonEmpty_nil.
    intros c Hc. apply in_map_iff in Hc as (part & <- & Hpart).
    apply commandOf_assignments. intros tok Htok. now apply (H step part).
  - intros tbl. reflexivity.
Qed.

(** C7 at a job with a sequence as runner spec and two steps. *)
Lemma C7_only_assignments_witness :
  GetMissingCommands dockerOnly
    (mkJob (Slice [Str "ubuntu-latest"])
       [mkStep "A=1 B=2 | C=3" []; mkStep [] "actions/checkout@v4"]
       Nil Nil)
  = Ok [].
Proof.
  destruct C7_only_assignments as (_ & H & _).
  apply H; [reflexivity|].
  intros step part tok [<-|[<-|[]]] Hpart Htok.
  - vm_compute in Hpart. destruct Hpart as [<-|[<-|[]]];
      vm_compute in Htok.
    + destruct Htok as [<-|[<-|[]]]; reflexivity.
    + destruct Htok as [<-|[]]; reflexivity.
  - vm_compute in Hpart. destruct Hpart.
Defined.

(** ** C8: wrapper prefixes and basenames *)

(** C8.  The script [sudo docker build -t app .] yields the one command
    [docker], reported when the table lists it.  In general, the leading
    fields that are one of sudo, env, time, nohup, setsid, stdbuf are
    passed, however many, and the next field is the command;
    [normalizeCommand] keeps what follows the last [/], trimmed, which for
    an extracted command is what follows the last [/] as it stands; and a
    command whose basename is empty is not reported. *)
Theorem C8_wrappers_and_basename :
  extractCommands "sudo docker build -t app ." = Ok [str "docker"]
  /\ normalizeCommand "docker" = Ok (str "docker")
  /\ (forall IsMissingInSlim : gostring -> bool,
        IsMissingInSlim (str "docker") = true ->
        GetMissingCommands IsMissingInSlim
          (shellJob "sudo docker build -t app .") = Ok [str "docker"])
  /\ prefixes
     = [str "sudo"; str "env"; str "time"; str "nohup"; str "setsid";
        str "stdbuf"]
  /\ (forall (part : gostring) (ws : list gostring) (c : gostring)
             (rest : list gostring),
        Fields part = ws ++ c :: rest ->
        Forall (fun w => In w prefixes) ws -> ~ In c prefixes ->
        Contains c "=" = false ->
        extractCommandFromPart part = Ok c)
  /\ (forall dir base : gostring,
        ~ In "/"%char base ->
        normalizeCommand (dir ++ "/" ++ base) = Ok (TrimSpace base))
  /\ (forall (script : gostring) (commands : list gostring)
             (dir base : gostring),
        extractCommands script = Ok commands ->
        In (dir ++ "/" ++ base) commands -> ~ In "/"%char base ->
        normalizeCommand (dir ++ "/" ++ base) = Ok base)
  /\ (forall IsMissingInSlim : gostring -> bool,
        normalizeCommand "/usr/bin/" = Ok []
        /\ GetMissingCommands IsMissingInSlim (shellJob "sudo /usr/bin/")
           = Ok []).
Proof.
  split; [reflexivity|]. split; [reflexivity|]. split.
  { intros tbl H. vm_compute in H. vm_compute. now rewrite H. }
  split; [reflexivity|]. split.
  { intros part ws c rest E Hws Hc Heq.
    rewrite extractCommandFromPart_spec. f_equal.
    apply (commandOf_wrappers part ws c rest); auto.
    - eapply List.Forall_impl; [|exact Hws]. intros w Hw. now apply isOneOf_In.
    - apply not_true_is_false. intros Hw. now apply isOneOf_In in Hw. }
  split; [exact normalizeCommand_path|]. split.
  { intros script commands dir base E Hin Hb.
    rewrite normalizeCommand_path by assumption. f_equal.
    apply extractCommands_words in E. rewrite List.Forall_forall in E.
    destruct (E _ Hin) as [_ Hs]. apply TrimSpace_Others.
    rewrite !map_app in Hs. now do 2 apply scanned_app_r in Hs. }
  intros tbl. split; reflexivity.
Qed.

(** C8 at the script of the claim and at a command with three prefixes and a
    path. *)
Lemma C8_wrappers_and_basename_witness :
  GetMissingCommands dockerOnly
    (shellJob "sudo docker build -t app .") = Ok [str "docker"]
  /\ extractCommandFromPart "sudo env nohup /usr/local/bin/docker ps"
     = Ok (str "/usr/local/bin/docker")
  /\ normalizeCommand "/usr/local/bin/docker" = Ok (str "docker").
Proof.
  destruct C8_wrappers_and_basename
    as (_ & _ & Hd & _ & Hw & Hb & _). split; [|split].
  - apply Hd. reflexivity.
  - apply (Hw _ [str "sudo"; str "env"; str "nohup"]
             (str "/usr/local/bin/docker") [str "ps"]).
    + reflexivity.
    + repeat (apply List.Forall_cons; [simpl; auto 10|]). apply List.Forall_nil.
    + intros H. simpl in H. repeat (destruct H as [H|H]; [discriminate H|]).
      destruct H.
    + reflexivity.
  - apply (Hb (str "/usr/local/bin") (str "docker")).
    intros H. simpl in H. repeat (destruct H as [H|H]; [discriminate H|]).
    destruct H.
Defined.

(** ** C9: redirection targets *)

(** C9.  [splitCommandLine] cuts a line at the redirection operators, as at
    the pipe and the semicolon: no piece holds [>], [<], [|] or [;], so
    what follows a redirection operator is a piece of its own; and
    [extractCommands] reads the command of every piece.  The line
    [echo hi > docker], and the same line with [>>], [<] or [<<], thus
    yields the commands [echo] and [docker]; and [GetMissingCommands]
    reports [docker] for it when the table lists [docker] and not
    [echo]. *)
Theorem C9_redirection_target_extracted :
  (forall (line part : gostring) (c : ascii),
     In part (splitCommandLine line) ->
     In c ["|"; ";"; ">"; "<"]%char -> ~ In c part)
  /\ (forall script : gostring,
        extractCommands script
        = Ok (List.filter nonEmpty (map commandOf (fragments script))))
  /\ splitCommandLine "echo hi > docker" = [str "echo hi"; str "docker"]
  /\ extractCommands "echo hi > docker" = Ok [str "echo"; str "docker"]
  /\ extractCommands "echo hi >> docker" = Ok [str "echo"; str "docker"]
  /\ extractCommands "echo hi < docker" = Ok [str "echo"; str "docker"]
  /\ extractCommands "echo hi << docker" = Ok [str "echo"; str "docker"]
  /\ (forall IsMissingInSlim : gostring -> bool,
        IsMissingInSlim (str "docker") = true ->
        IsMissingInSlim (str "echo") = false ->
        GetMissingCommands IsMissingInSlim (shellJob "echo hi > docker")
        = Ok [str "docker"]).
Proof.
  split; [exact splitCommandLine_operator_free|].
  split; [exact extractCommands_spec|].
  repeat (split; [reflexivity|]).
  intros tbl Hd He. vm_compute in Hd, He. vm_compute. now rewrite He, Hd.
Qed.

(** C9 at the table that lists [docker] only. *)
Lemma C9_redirection_target_extracted_witness :
  GetMissingCommands dockerOnly (shellJob "echo hi > docker")
  = Ok [str "docker"].
Proof.
  destruct C9_redirection_target_extracted
    as (_ & _ & _ & _ & _ & _ & _ & H).
  apply H; reflexivity.
Defined.

(** ** C10: an assignment after a wrapper prefix *)

(** C10.  The fields with [=] are passed only at the front of a fragment,
    before the wrapper prefixes are, and not again after them:
    [extractCommandFromPart] returns the first field left after the leading
    fields with [=] and then the leading prefixes.  So when a prefix is
    followed by a field with [=], that field is returned: [FOO=1] for
    [env FOO=1 docker build], where [FOO=1 env docker build] gives
    [docker]. *)
Theorem C10_assignment_after_wrapper :
  extractCommandFromPart "env FOO=1 docker build" = Ok (str "FOO=1")
  /\ extractCommandFromPart "FOO=1 env docker build" = Ok (str "docker")
  /\ (forall part : gostring,
        extractCommandFromPart part
        = Ok (hd [] (dropWhile (fun f => isOneOf f prefixes)
                       (dropWhile (fun f => Contains f "=")
                          (Fields part)))))
  /\ (forall (part w a : gostring) (rest : list gostring),
        Fields part = w :: a :: rest ->
        In w prefixes -> Contains a "=" = true ->
        extractCommandFromPart part = Ok a).
Proof.
  split; [reflexivity|]. split; [reflexivity|].
  split; [exact extractCommandFromPart_spec|].
  intros part w a rest E Hw Ha. rewrite extractCommandFromPart_spec. f_equal.
  apply (commandOf_wrapper_assignment part w a rest); auto.
  now apply isOneOf_In.
Qed.

(** C10 at [sudo] followed by an assignment of [PATH]. *)
Lemma C10_assignment_after_wrapper_witness :
  extractCommandFromPart "  sudo PATH=/opt/bin:$PATH make install"
  = Ok (str "PATH=/opt/bin:$PATH").
Proof.
  destruct C10_assignment_after_wrapper as (_ & _ & _ & H).
  apply (H _ (str "sudo") (str "PATH=/opt/bin:$PATH")
           [str "make"; str "install"]).
  - reflexivity.
  - simpl; auto.
  - reflexivity.
Defined.

(** * Further properties *)

(** ** Trimming twice *)

Lemma dropWhile_length {A} (p : A -> bool) (l : list A) :
  length (dropWhile p l) <= length l.
Proof. induction l as [|x l IH]; simpl; [lia|]. destruct (p x); simpl; lia. Qed.

Lemma dropWhile_fixed_head {A} (p : A -> bool) (x : A) (l : list A) :
  dropWhile p (x :: l) = x :: l -> p x = false.
Proof.
  simpl. destruct (p x); [|reflexivity]. intros E.
  pose proof (dropWhile_length p l) as H. rewrite E in H. simpl in H. lia.
Qed.

Lemma dropWhile_idem {A} (p : A -> bool) (l : list A) :
  dropWhile p (dropWhile p l) = dropWhile p l.
Proof.
  induction l as [|x l IH]; simpl; [reflexivity|].
  destruct (p x) eqn:E; [exact IH|]. simpl. now rewrite E.
Qed.

Lemma dropWhile_fixed_prefix {A} (p : A -> bool) (l1 l2 : list A) :
  dropWhile p (l1 ++ l2) = l1 ++ l2 -> dropWhile p l1 = l1.
Proof.
  destruct l1 as [|x l1]; [reflexivity|]. intros H.
  apply dropWhile_fixed_head in H. simpl. now rewrite H.
Qed.

Lemma dropWhileEnd_idem {A} (p : A -> bool) (l : list A) :
  dropWhileEnd p (dropWhileEnd p l) = dropWhileEnd p l.
Proof.
  unfold dropWhileEnd. now rewrite rev_involutive, dropWhile_idem.
Qed.

Lemma trimmed_fixed (l : list sym) : trimmed (trimmed l) = trimmed l.
Proof.
  unfold trimmed.
  destruct (dropWhileEnd_prefix isSpace (dropWhile isSpace l)) as (l1 & E & _).
  rewrite (dropWhile_fixed_prefix isSpace _ l1).
  - apply dropWhileEnd_idem.
  - rewrite <- E. apply dropWhile_idem.
Qed.

Lemma scanned_trimmed (s : gostring) : scanned (trimmed (scan s)).
Proof.
  unfold trimmed.
  destruct (dropWhile_suffix isSpace (scan s)) as (l0 & E0 & _).
  destruct (dropWhileEnd_prefix isSpace (dropWhile isSpace (scan s)))
    as (l1 & E1 & _).
  apply scanned_app_l with l1. rewrite <- E1.
  apply scanned_app_r with l0. rewrite <- E0. apply scanned_scan.
Qed.

Lemma TrimSpace_idempotent (s : gostring) :
  TrimSpace (TrimSpace s) = TrimSpace s.
Proof.
  unfold TrimSpace. fold (trimmed (scan s)).
  rewrite (scan_unscan _ (scanned_trimmed s)).
  fold (trimmed (trimmed (scan s))). now rewrite trimmed_fixed.
Qed.

(** ** Substrings *)

Lemma Contains_iff (s sub : gostring) :
  Contains s sub = true <-> exists a b, s = a ++ sub ++ b.
Proof.
  unfold Contains. split.
  - induction s as [|x s IH]; cbn [Index].
    + destruct (HasPrefix [] sub) eqn:E; [|discriminate]. intros _.
      apply HasPrefix_iff in E as (r & E). exists [], r. exact E.
    + destruct (HasPrefix (x :: s) sub) eqn:E.
      * intros _. apply HasPrefix_iff in E as (r & E). exists [], r. exact E.
      * destruct (Index s sub); [|discriminate]. intros _.
        destruct (IH eq_refl) as (a & b & ->). now exists (x :: a), b.
  - intros (a & b & ->). induction a as [|x a IH]; cbn [app].
    + assert (E : HasPrefix (sub ++ b) sub = true)
        by (apply HasPrefix_iff; eauto).
      destruct (sub ++ b); cbn [Index]; now rewrite E.
    + cbn [Index]. destruct (HasPrefix (x :: a ++ sub ++ b) sub);
        [reflexivity|].
      now destruct (Index (a ++ sub ++ b) sub).
Qed.

Lemma Contains_segment (s a t b sep : gostring) :
  s = a ++ t ++ b -> Contains s sep = false -> Contains t sep = false.
Proof.
  intros -> H. apply not_true_is_false. intros Ht.
  apply Contains_iff in Ht as (a' & b' & ->).
  assert (E : Contains (a ++ (a' ++ sep ++ b') ++ b) sep = true); [|congruence].
  apply Contains_iff. exists (a ++ a'), (b' ++ b).
  now rewrite <- !app_assoc.
Qed.

Lemma Contains_nil (sep : gostring) : sep <> [] -> Contains [] sep = false.
Proof. destruct sep; [easy | reflexivity]. Qed.

Lemma Index_None_Contains (s sep : gostring) :
  Index s sep = None <-> Contains s sep = false.
Proof. unfold Contains. destruct (Index s sep); split; congruence. Qed.

(** The first occurrence: nothing before it holds the separator. *)
Lemma Index_Some (sep s : gostring) (i : nat) :
  sep <> [] -> Index s sep = Some i ->
  s = take i s ++ sep ++ drop (i + length sep) s
  /\ Contains (take i s) sep = false.
Proof.
  intros Hsep. revert i; induction s as [|x s IH]; intros i; cbn [Index].
  - destruct (HasPrefix [] sep) eqn:E; [|discriminate].
    apply HasPrefix_iff in E as (r & E). destruct sep; [easy | discriminate].
  - destruct (HasPrefix (x :: s) sep) eqn:E.
    + intros [= <-]. apply HasPrefix_iff in E as (r & E). rewrite E.
      cbn [take Nat.add app]. rewrite drop_app_length.
      split; [reflexivity | now apply Contains_nil].
    + destruct (Index s sep) as [i'|] eqn:Ei; [|discriminate].
      intros [= <-]. destruct (IH i' eq_refl) as [Es Hc].
      cbn [take drop Nat.add]. split; [cbn [app]; now rewrite <- Es|].
      apply Index_None_Contains. cbn [Index].
      destruct (HasPrefix (x :: take i' s) sep) eqn:E'.
      * apply HasPrefix_iff in E' as (r & E').
        assert (HasPrefix (x :: s) sep = true); [|congruence].
        apply HasPrefix_iff. exists (r ++ drop i' s).
        rewrite app_assoc, <- E'. cbn [app]. now rewrite take_drop.
      * apply Index_None_Contains in Hc. now rewrite Hc.
Qed.

Lemma genSplit_free (sep : gostring) (n : nat) (s piece : gostring) :
  sep <> [] -> length s <= n -> In piece (genSplit n s sep) ->
  Contains piece sep = false.
Proof.
  intros Hsep. revert s; induction n as [|n IH]; intros s Hn; cbn [genSplit].
  - intros [<-|[]]. destruct s; [|simpl in Hn; lia].
    now apply Contains_nil.
  - destruct (Index s sep) as [i|] eqn:Ei.
    + destruct (Index_Some sep s i Hsep Ei) as [Es Hc].
      intros [<-|H]; [assumption|]. apply (IH (drop (i + length sep) s)); auto.
      apply (f_equal (@length ascii)) in Es. rewrite !length_app in Es.
      set (d := drop (i + length sep) s) in *.
      destruct sep; [easy|]. simpl length in Es. lia.
    + intros [<-|[]]. now apply Index_None_Contains.
Qed.

Lemma genSplit_absent (sep : gostring) (n : nat) (s : gostring) :
  Contains s sep = false -> genSplit n s sep = [s].
Proof.
  intros H. apply Index_None_Contains in H.
  destruct n; cbn [genSplit]; [reflexivity | now rewrite H].
Qed.

(** ** The pieces of [splitCommandLine] *)

Lemma appendTrimmed_In_nonEmpty (split newParts : list gostring)
    (part : gostring) :
  In part (appendTrimmed newParts split) ->
  In part newParts
  \/ exists s, In s split /\ part = TrimSpace s /\ part <> [].
Proof.
  revert newParts; induction split as [|s split IH]; intros newParts;
    cbn [appendTrimmed]; [auto|].
  destruct (TrimSpace s) as [|c t] eqn:Et; cbn [isEmpty negb];
    intros H; apply IH in H.
  - destruct H as [H|(s' & Hs' & Hp)]; [auto|].
    right. exists s'. split; [now right | assumption].
  - destruct H as [H|(s' & Hs' & Hp)].
    + apply in_app_or in H as [H|[<-|[]]]; [auto|].
      right. exists s. split; [now left|]. now rewrite Et.
    + right. exists s'. split; [now right | assumption].
Qed.

Lemma splitParts_In_nonEmpty (sep : gostring) (parts newParts : list gostring)
    (part : gostring) :
  In part (splitParts sep newParts parts) ->
  In part newParts
  \/ exists p s, In p parts /\ In s (Split p sep) /\ part = TrimSpace s
                 /\ part <> [].
Proof.
  revert newParts; induction parts as [|p parts IH]; intros newParts;
    cbn [splitParts]; [auto|].
  intros H. apply IH in H as [H|(p' & s & Hp' & Hs & Hp)].
  - apply appendTrimmed_In_nonEmpty in H as [H|(s & Hs & Hp)]; [auto|].
    right. exists p, s. split; [now left | auto].
  - right. exists p', s. split; [now right | auto].
Qed.

(** After a round of splitting every part is trimmed and not empty. *)
Lemma splitBy_trimmed (seps : list gostring) :
  forall parts : list gostring,
    seps <> [] \/ (forall p, In p parts -> p <> [] /\ TrimSpace p = p) ->
    forall part, In part (splitBy seps parts) ->
                 part <> [] /\ TrimSpace part = part.
Proof.
  induction seps as [|sep seps IH]; intros parts H part; cbn [splitBy].
  - destruct H as [H|H]; [easy | apply H].
  - apply IH. right. intros p Hp.
    apply splitParts_In_nonEmpty in Hp as [[]|(p0 & s & _ & _ & -> & Hne)].
    split; [assumption | apply TrimSpace_idempotent].
Qed.

Lemma nonempty_in {A} (x : A) (l : list A) : In x l -> l <> [].
Proof. destruct l; [easy | discriminate]. Qed.

(** Once the parts are free of a separator they stay so, and a split at
    it makes them so. *)
Lemma splitBy_free (sep0 : gostring) (seps : list gostring) :
  sep0 <> [] ->
  forall parts : list gostring,
    In sep0 seps \/ (forall p, In p parts -> Contains p sep0 = false) ->
    forall part, In part (splitBy seps parts) -> Contains part sep0 = false.
Proof.
  intros Hne. induction seps as [|sep seps IH]; intros parts H part;
    cbn [splitBy].
  - destruct H as [[]|H]. apply H.
  - apply IH.
    destruct (List.list_eq_dec ascii_dec sep sep0) as [->|Hsep].
    + right. intros p Hp.
      apply splitParts_In in Hp as [[]|(p0 & s & _ & Hs & ->)].
      destruct (TrimSpace_segment s) as (a & b & E).
      apply (Contains_segment s a _ b sep0 E).
      now apply (genSplit_free sep0 (length p0) p0).
    + destruct H as [[H|H]|H]; [congruence | now left | right].
      intros p Hp.
      apply splitParts_In in Hp as [[]|(p0 & s & Hp0 & Hs & ->)].
      destruct (TrimSpace_segment s) as (a & b & E).
      apply (Contains_segment s a _ b sep0 E).
      apply genSplit_segment in Hs as (a' & b' & E').
      apply (Contains_segment p0 a' s b' sep0 E'). now apply H.
Qed.

Lemma separators_nonempty (sep : gostring) : In sep separators -> sep <> [].
Proof.
  unfold separators. intros H.
  repeat (destruct H as [<-|H]; [discriminate|]). destruct H.
Qed.

Lemma separators_not_nil : separators <> [].
Proof. unfold separators. intros E. inversion E. Qed.

Lemma splitBy_nil (seps : list gostring) : splitBy seps [] = [].
Proof. induction seps; cbn [splitBy splitParts]; auto. Qed.

(** A part without any of the separators goes through the rounds whole. *)
Lemma splitBy_whole (seps : list gostring) :
  forall p : gostring,
    seps <> [] ->
    (forall sep, In sep seps -> Contains p sep = false) ->
    splitBy seps [p]
    = if isEmpty (TrimSpace p) then [] else [TrimSpace p].
Proof.
  induction seps as [|sep seps IH]; intros p Hne H; [easy|].
  cbn [splitBy splitParts]. unfold Split.
  rewrite genSplit_absent by (apply H; now left).
  cbn [appendTrimmed app].
  destruct (TrimSpace p) as [|c t] eqn:Et; cbn [isEmpty negb].
  - apply splitBy_nil.
  - rewrite <- Et. destruct seps as [|sep' seps]; [reflexivity|].
    rewrite IH; [| discriminate |].
    + now rewrite TrimSpace_idempotent, Et.
    + intros s Hs. destruct (TrimSpace_segment p) as (a & b & E).
      apply (Contains_segment p a _ b s E). apply H. now right.
Qed.

(** X1.  Every piece that [splitCommandLine] returns is not empty, is
    trimmed, and holds none of the separators. *)
Theorem X1_pieces_trimmed_and_separator_free :
  forall line part : gostring,
    In part (splitCommandLine line) ->
    part <> [] /\ TrimSpace part = part
    /\ forall sep, In sep separators -> Contains part sep = false.
Proof.
  intros line part H. unfold splitCommandLine in H.
  destruct (splitBy_trimmed separators [line] (or_introl separators_not_nil)
              part H) as [Hne Ht].
  split; [assumption|]. split; [assumption|].
  intros sep Hsep.
  apply (splitBy_free sep separators (separators_nonempty sep Hsep) [line]);
    auto.
Qed.

(** X1 at a line with a pipe, a redirection and a logical operator. *)
Lemma X1_pieces_trimmed_and_separator_free_witness :
  str "sort -u" <> [] /\ TrimSpace "sort -u" = str "sort -u"
  /\ forall sep, In sep separators -> Contains "sort -u" sep = false.
Proof.
  apply (X1_pieces_trimmed_and_separator_free
           "cat a.txt | sort -u > out && echo ok").
  vm_compute. auto.
Defined.

(** X2.  A line that holds none of the separators is one piece, its trimmed
    text; no piece when the line is blank.  A single [&] is not a
    separator. *)
Theorem X2_line_without_separator :
  forall line : gostring,
    (forall sep, In sep separators -> Contains line sep = false) ->
    splitCommandLine line
    = if isEmpty (TrimSpace line) then [] else [TrimSpace line].
Proof.
  intros line H. apply splitBy_whole; [exact separators_not_nil | assumption].
Qed.

(** X2 at a line that puts a command in the background. *)
Lemma X2_line_without_separator_witness :
  splitCommandLine "  sleep 5 & echo started "
  = [str "sleep 5 & echo started"].
Proof.
  apply (X2_line_without_separator "  sleep 5 & echo started ").
  intros sep H. unfold separators in H.
  repeat (destruct H as [<-|H]; [reflexivity|]). destruct H.
Defined.

(** ** [normalizeCommand] *)

Lemma normalizeCommand_cases (cmd : gostring) :
  exists dir base,
    cmd = dir ++ base /\ ~ In slash base
    /\ normalizeCommand cmd = Ok (TrimSpace base).
Proof.
  destruct (first_byte slash (rev cmd)) as [H|(a & b & E & Ha)].
  - exists [], cmd. split; [reflexivity|].
    assert (Hc : ~ In slash cmd)
      by (intros Hin; apply H; now apply in_rev in Hin).
    split; [assumption | now apply normalizeCommand_plain].
  - exists (rev b ++ "/"), (rev a).
    assert (Ec : cmd = rev b ++ "/" ++ rev a).
    { rewrite <- (rev_involutive cmd), E, rev_app_distr. simpl.
      now rewrite <- app_assoc. }
    assert (Hb : ~ In slash (rev a))
      by (intros Hin; apply Ha; now apply in_rev).
    split; [now rewrite <- app_assoc|]. split; [assumption|].
    rewrite Ec. now apply normalizeCommand_path.
Qed.

Lemma TrimSpace_no_byte (c : ascii) (s : gostring) :
  ~ In c s -> ~ In c (TrimSpace s).
Proof.
  intros H. destruct (TrimSpace_segment s) as (a & b & E).
  now apply (not_In_segment c s a _ b E).
Qed.

(** X3.  [normalizeCommand] returns a name without [/], and a name that
    it returns it returns unchanged: normalizing twice is normalizing
    once. *)
Theorem X3_normalizeCommand_basename :
  forall cmd : gostring,
    exists name,
      normalizeCommand cmd = Ok name
      /\ ~ In "/"%char name
      /\ normalizeCommand name = Ok name.
Proof.
  intros cmd.
  destruct (normalizeCommand_cases cmd) as (dir & base & _ & Hb & E).
  exists (TrimSpace base). split; [assumption|].
  pose proof (TrimSpace_no_byte slash base Hb) as Ht.
  split; [assumption|].
  rewrite normalizeCommand_plain by assumption.
  now rewrite TrimSpace_idempotent.
Qed.

(** ** [extractCommandFromPart] *)

Lemma dropWhile_head_false {A} (p : A -> bool) (l : list A) (x : A)
    (r : list A) :
  dropWhile p l = x :: r -> p x = false.
Proof.
  induction l as [|y l IH]; simpl; [discriminate|].
  destruct (p y) eqn:E; [exact IH|]. now intros [= <- _].
Qed.

Lemma dropWhile_In {A} (p : A -> bool) (l : list A) (x : A) :
  In x (dropWhile p l) -> In x l.
Proof.
  destruct (dropWhile_suffix p l) as (l0 & E & _). intros H.
  rewrite E. apply in_or_app. now right.
Qed.

Lemma commandOf_field (part : gostring) :
  commandOf part = []
  \/ (In (commandOf part) (Fields part) /\ isWrapper (commandOf part) = false).
Proof.
  unfold commandOf.
  destruct (dropWhile isWrapper (dropWhile hasEq (Fields part)))
    as [|x r] eqn:E; [now left|].
  right. cbn [hd]. split.
  - apply (dropWhile_In hasEq), (dropWhile_In isWrapper). rewrite E. now left.
  - exact (dropWhile_head_false isWrapper _ x r E).
Qed.

(** X4.  What [extractCommandFromPart] returns is the empty string or one
    of the fields of the fragment, and never one of the wrapper prefixes
    sudo, env, time, nohup, setsid, stdbuf. *)
Theorem X4_command_is_a_field :
  forall part : gostring,
    exists cmd,
      extractCommandFromPart part = Ok cmd
      /\ (cmd = [] \/ In cmd (Fields part))
      /\ ~ In cmd prefixes.
Proof.
  intros part. exists (commandOf part).
  split; [apply extractCommandFromPart_spec|].
  destruct (commandOf_field part) as [E|[Hin Hw]].
  - rewrite E. split; [now left|]. unfold prefixes. intros H.
    repeat (destruct H as [H|H]; [discriminate H|]). destruct H.
  - split; [now right|]. intros H. apply isOneOf_In in H.
    unfold isWrapper in Hw. congruence.
Qed.

(** X5.  A fragment made of assignments followed by wrapper prefixes
    only, such as [FOO=1 sudo env], yields no command. *)
Theorem X5_assignments_then_prefixes_only :
  forall (part : gostring) (assignments wrappers : list gostring),
    Fields part = assignments ++ wrappers ->
    Forall (fun f => Contains f "=" = true) assignments ->
    Forall (fun f => In f prefixes) wrappers ->
    extractCommandFromPart part = Ok [].
Proof.
  intros part asg ws E Ha Hw. rewrite extractCommandFromPart_spec. f_equal.
  rewrite E. clear E.
  assert (Hd : dropWhile hasEq (asg ++ ws) = ws).
  { induction Ha as [|f asg Hf _ IH]; cbn [app dropWhile].
    - apply dropWhile_none. intros x Hx. rewrite List.Forall_forall in Hw.
      apply wrapper_no_eq. now apply isOneOf_In, Hw.
    - unfold hasEq at 1. now rewrite Hf. }
  rewrite Hd, dropWhile_all; [reflexivity|].
  intros x Hx. rewrite List.Forall_forall in Hw. now apply isOneOf_In, Hw.
Qed.

(** X5 at the fragment of the statement. *)
Lemma X5_assignments_then_prefixes_only_witness :
  extractCommandFromPart "FOO=1 BAR=2 sudo env" = Ok [].
Proof.
  apply (X5_assignments_then_prefixes_only "FOO=1 BAR=2 sudo env"
           [str "FOO=1"; str "BAR=2"] [str "sudo"; str "env"]).
  - reflexivity.
  - repeat (apply List.Forall_cons; [reflexivity|]). apply List.Forall_nil.
  - repeat (apply List.Forall_cons; [simpl; auto 10|]). apply List.Forall_nil.
Defined.

Lemma fieldsFrom_nil (cur : gostring) (l : list sym) :
  fieldsFrom cur l = [] -> cur = [] /\ forallb isSpace l = true.
Proof.
  revert cur; induction l as [|[enc|b] l IH]; intros cur; cbn [fieldsFrom].
  - destruct cur; [auto | discriminate].
  - destruct cur; cbn [isEmpty]; [|discriminate].
    intros H. destruct (IH [] H). auto.
  - intros H. destruct (IH _ H) as [E _]. now destruct cur.
Qed.

Lemma Fields_nil_TrimSpace (s : gostring) : Fields s = [] -> TrimSpace s = [].
Proof.
  unfold Fields, TrimSpace. intros H. apply fieldsFrom_nil in H as [_ H].
  rewrite (dropWhile_all isSpace (scan s)); [reflexivity|].
  now apply forallb_forall.
Qed.

(** X6.  In [extractCommandFromPart] the fields are computed, joined with
    spaces and computed again: the second computation gives the fields
    back, whatever number of leading fields was dropped; and a fragment
    that is not blank has a field.  So the two tests for an empty list of
    fields never decide. *)
Theorem X6_fields_recomputed :
  (forall part : gostring,
     TrimSpace part <> [] -> Fields (TrimSpace part) <> [])
  /\ (forall (part : gostring) (startIndex : nat),
        Fields (Join (drop startIndex (Fields part)) " ")
        = drop startIndex (Fields part)).
Proof.
  split.
  - intros part H E. apply H. rewrite Fields_TrimSpace in E.
    now apply Fields_nil_TrimSpace.
  - intros part k. apply Fields_Join, Forall_drop, Fields_words.
Qed.

(** X6 at a fragment with two assignments in front. *)
Lemma X6_fields_recomputed_witness :
  Fields (TrimSpace "  A=1 B=2 make  all ") <> [].
Proof.
  destruct X6_fields_recomputed as [H _]. apply H. vm_compute. discriminate.
Defined.

(** ** [extractCommands] *)

Lemma genSplit_byte_cons (c : ascii) (n : nat) (a b : gostring) :
  ~ In c a -> genSplit (S n) (a ++ c :: b) [c] = a :: genSplit n b [c].
Proof.
  intros Ha. cbn [genSplit]. rewrite (Index_byte_first c a b Ha).
  change (a ++ c :: b) with (a ++ [c] ++ b).
  rewrite take_app_length.
  now rewrite app_assoc, drop_app_length' by now rewrite length_app.
Qed.

(** The bound on the number of cuts does not matter once it is the length
    of the string. *)
Lemma genSplit_byte_fuel (c : ascii) (n : nat) :
  forall (m : nat) (s : gostring),
    length s <= n -> length s <= m -> genSplit n s [c] = genSplit m s [c].
Proof.
  induction n as [|n IH]; intros m s Hn Hm.
  - destruct s; [|simpl in Hn; lia]. now destruct m.
  - destruct (first_byte c s) as [H|(a & b & -> & Ha)].
    + now rewrite !genSplit_byte_notin.
    + rewrite length_app in Hn, Hm. simpl in Hn, Hm.
      destruct m as [|m]; [lia|].
      rewrite !genSplit_byte_cons by assumption. f_equal.
      apply IH; lia.
Qed.

Lemma Split_byte_app (c : ascii) (b : gostring) (n : nat) :
  forall a : gostring,
    length a <= n ->
    Split (a ++ c :: b) [c] = Split a [c] ++ Split b [c].
Proof.
  unfold Split. induction n as [|n IH]; intros a Hn.
  - destruct a; [|simpl in Hn; lia]. cbn [app length].
    pose proof (genSplit_byte_cons c (length b) [] b (fun H => H)) as E.
    cbn [app] in E. now rewrite E.
  - destruct (first_byte c a) as [H|(a1 & a2 & -> & Ha)].
    + rewrite length_app. cbn [length].
      replace (length a + S (length b)) with (S (length a + length b)) by lia.
      rewrite genSplit_byte_cons by assumption.
      rewrite (genSplit_byte_notin _ c a H). cbn [app]. f_equal.
      apply genSplit_byte_fuel; lia.
    + rewrite <- app_assoc. cbn [app].
      rewrite !length_app in *. cbn [length] in *. rewrite length_app.
      cbn [length].
      replace (length a1 + S (length a2 + S (length b)))
        with (S (length a1 + length a2 + S (length b))) by lia.
      replace (length a1 + S (length a2)) with (S (length a1 + length a2))
        by lia.
      rewrite !genSplit_byte_cons by assumption. cbn [app]. f_equal.
      rewrite (genSplit_byte_fuel c _ (length (a2 ++ c :: b)))
        by (rewrite ?length_app; cbn [length]; lia).
      rewrite (genSplit_byte_fuel c (length a1 + length a2) (length a2))
        by lia.
      apply IH. lia.
Qed.

Lemma fragments_app (s1 s2 : gostring) :
  fragments (s1 ++ newline ++ s2) = fragments s1 ++ fragments s2.
Proof.
  unfold fragments, newline. cbn [app].
  rewrite (Split_byte_app _ s2 (length s1)) by lia.
  apply flat_map_app.
Qed.

(** X7.  The lines of a script are scanned one after the other and
    independently: the commands of two scripts put on either side of a
    line break are the commands of the first followed by the commands of
    the second. *)
Theorem X7_commands_line_by_line :
  forall s1 s2 : gostring,
    exists c1 c2,
      extractCommands s1 = Ok c1 /\ extractCommands s2 = Ok c2
      /\ extractCommands (s1 ++ newline ++ s2) = Ok (c1 ++ c2).
Proof.
  intros s1 s2. do 2 eexists.
  split; [apply extractCommands_spec|]. split; [apply extractCommands_spec|].
  rewrite extractCommands_spec, fragments_app, map_app.
  now rewrite List.filter_app.
Qed.

(** X8.  A script whose lines are all blank or start with [#] after
    trimming, a first line [#!] included, has no command. *)
Theorem X8_comments_and_blank_lines :
  forall script : gostring,
    (forall line,
       In line (Split script newline) ->
       TrimSpace line = [] \/ HasPrefix (TrimSpace line) "#" = true) ->
    extractCommands script = Ok [].
Proof.
  intros script H. rewrite extractCommands_spec. f_equal.
  unfold fragments.
  assert (E : flat_map lineFragments (Split script newline) = []).
  { induction (Split script newline) as [|line lines IH]; [reflexivity|].
    cbn [flat_map]. rewrite IH by (intros l Hl; apply H; now right).
    unfold lineFragments. destruct (H line (or_introl eq_refl)) as [-> | ->].
    - reflexivity.
    - now rewrite orb_true_r. }
  now rewrite E.
Qed.

(** X8 at a script with an interpreter line, a blank line and a comment. *)
Lemma X8_comments_and_blank_lines_witness :
  extractCommands
    ("#!/bin/bash" ++ newline ++ "  " ++ newline ++ "  # build the image")
  = Ok [].
Proof.
  apply X8_comments_and_blank_lines. intros line H. vm_compute in H.
  destruct H as [<-|[<-|[<-|[]]]]; [right | left | right]; reflexivity.
Defined.

Lemma fieldsFrom_segment (tok : gostring) (l : list sym) :
  forall cur : gostring,
    In tok (fieldsFrom cur l) -> exists a b, cur ++ unscan l = a ++ tok ++ b.
Proof.
  induction l as [|[enc|x] l IH]; intros cur; cbn [fieldsFrom].
  - destruct cur as [|c cur]; cbn [isEmpty]; [intros []|].
    intros [<-|[]]. exists [], []. reflexivity.
  - rewrite unscan_cons. cbn [bytes].
    assert (Hl : In tok (fieldsFrom [] l) ->
                 exists a b, cur ++ enc ++ unscan l = a ++ tok ++ b).
    { intros H. apply IH in H as (a & b & E). cbn [app] in E.
      exists (cur ++ enc ++ a), b. rewrite E. now rewrite <- !app_assoc. }
    destruct cur as [|c cur]; cbn [isEmpty]; [exact Hl|].
    intros [<-|H]; [|now apply Hl].
    exists [], (enc ++ unscan l). reflexivity.
  - intros H. apply IH in H as (a & b & E). exists a, b.
    rewrite <- E, unscan_cons. cbn [bytes]. now rewrite <- app_assoc.
Qed.

(** A field is a segment of the string. *)
Lemma Fields_segment (s tok : gostring) :
  In tok (Fields s) -> exists a b, s = a ++ tok ++ b.
Proof.
  intros H. apply fieldsFrom_segment in H as (a & b & E).
  exists a, b. rewrite <- E. cbn [app]. symmetry. apply unscan_scan.
Qed.

Lemma fragments_In (script part : gostring) :
  In part (fragments script) -> exists line, In part (splitCommandLine line).
Proof.
  unfold fragments. intros H. apply in_flat_map in H as (line & _ & H).
  unfold lineFragments in H.
  destruct (isEmpty (TrimSpace line) || HasPrefix (TrimSpace line) "#");
    [destruct H | eauto].
Qed.

(** X9.  Every command that [extractCommands] reports is a single token:
    it is its own one field (not empty, no white space), it is none of
    the wrapper prefixes, and it holds none of the separators of
    [splitCommandLine]. *)
Theorem X9_commands_are_tokens :
  forall script : gostring,
    exists commands,
      extractCommands script = Ok commands
      /\ forall cmd, In cmd commands ->
           Fields cmd = [cmd] /\ ~ In cmd prefixes
           /\ forall sep, In sep separators -> Contains cmd sep = false.
Proof.
  intros script. eexists. split; [apply extractCommands_spec|].
  intros cmd Hc. apply filter_In in Hc as [Hc Hne].
  apply in_map_iff in Hc as (part & <- & Hpart).
  assert (Hne' : commandOf part <> [])
    by (unfold nonEmpty in Hne; now destruct (commandOf part)).
  destruct (commandOf_field part) as [E|[Hin Hw]]; [contradiction|].
  split; [apply Fields_word; now apply commandOf_word|].
  split.
  - intros H. apply isOneOf_In in H. unfold isWrapper in Hw. congruence.
  - intros sep Hsep. apply fragments_In in Hpart as (line & Hline).
    apply Fields_segment in Hin as (a & b & E).
    apply (Contains_segment part a _ b sep E).
    apply (splitBy_free sep separators (separators_nonempty sep Hsep) [line]);
      auto.
Qed.

(** ** [GetMissingCommands] *)

Lemma tracks_empty : tracks ∅ [].
Proof. intros n. unfold seenAt. rewrite lookup_empty. simpl. easy. Qed.

Lemma tracks_insert (seen : gmap gostring bool) (missing : list gostring)
    (k : gostring) :
  tracks seen missing -> tracks (<[k:=true]> seen) (missing ++ [k]).
Proof.
  intros H n. specialize (H n). unfold seenAt in *.
  destruct (decide (k = n)) as [->|Hk].
  - rewrite lookup_insert_eq. simpl. split; [|reflexivity].
    intros _. apply in_or_app. right. now left.
  - rewrite lookup_insert_ne by assumption. split.
    + intros Hs. apply in_or_app. left. now apply H.
    + intros Hin. apply in_app_or in Hin as [?|[?|[]]];
        [now apply H | contradiction].
Qed.

Lemma NoDup_snoc {A} (l : list A) (x : A) :
  List.NoDup l -> ~ In x l -> List.NoDup (l ++ [x]).
Proof.
  induction 1 as [|y l Hy Hl IH]; intros Hx; simpl.
  - constructor; [easy | constructor].
  - constructor.
    + rewrite in_app_iff. intros [?|[->|[]]]; [contradiction|].
      apply Hx. now left.
    + apply IH. intros H. apply Hx. now right.
Qed.

Lemma missingOfCommands_inv tbl (commands : list gostring) :
  forall missing seen missing' seen',
    tracks seen missing -> List.NoDup missing ->
    missingOfCommands tbl missing seen commands = Ok (missing', seen') ->
    tracks seen' missing' /\ List.NoDup missing'
    /\ (exists added, missing' = missing ++ added)
    /\ forall n,
         In n missing' <->
         In n missing
         \/ (n <> [] /\ tbl n = true
             /\ exists cmd, In cmd commands /\ normalizeCommand cmd = Ok n).
Proof.
  induction commands as [|cmd commands IH];
    intros missing seen missing' seen' Ht Hn; cbn [missingOfCommands].
  - intros [= <- <-]. split; [assumption|]. split; [assumption|].
    split; [exists []; now rewrite app_nil_r|].
    intros n. split; [auto|]. intros [?|(_ & _ & cmd & [] & _)]. assumption.
  - destruct (normalizeCommand_total cmd) as (name & Ename).
    rewrite Ename. cbn [bind].
    destruct (isEmpty name) eqn:Eempty.
    { intros H. destruct (IH _ _ _ _ Ht Hn H) as (Ht' & Hn' & Hadd & Hin).
      split; [assumption|]. split; [assumption|]. split; [assumption|].
      intros n. rewrite Hin. split.
      - intros [?|(Hne & Htbl & c & Hc & E)]; [auto|].
        right. split; [assumption|]. split; [assumption|].
        exists c. split; [now right | assumption].
      - intros [?|(Hne & Htbl & c & [<-|Hc] & E)]; [auto| |].
        + rewrite Ename in E. injection E as <-. now destruct name.
        + right. eauto. }
    destruct (tbl name) eqn:Etbl; cbn [andb].
    2:{ intros H. destruct (IH _ _ _ _ Ht Hn H) as (Ht' & Hn' & Hadd & Hin).
        split; [assumption|]. split; [assumption|]. split; [assumption|].
        intros n. rewrite Hin. split.
        - intros [?|(Hne & Htbl & c & Hc & E)]; [auto|].
          right. split; [assumption|]. split; [assumption|].
          exists c. split; [now right | assumption].
        - intros [?|(Hne & Htbl & c & [<-|Hc] & E)]; [auto| |].
          + rewrite Ename in E. injection E as <-. congruence.
          + right. eauto. }
    destruct (seenAt seen name) eqn:Eseen; cbn [negb].
    { intros H. destruct (IH _ _ _ _ Ht Hn H) as (Ht' & Hn' & Hadd & Hin).
      split; [assumption|]. split; [assumption|]. split; [assumption|].
      intros n. rewrite Hin. split.
      - intros [?|(Hne & Htbl & c & Hc & E)]; [auto|].
        right. split; [assumption|]. split; [assumption|].
        exists c. split; [now right | assumption].
      - intros [?|(Hne & Htbl & c & [<-|Hc] & E)]; [auto| |].
        + rewrite Ename in E. injection E as <-. left. now apply Ht.
        + right. eauto. }
    intros H.
    assert (Hnot : ~ In name missing).
    { intros Hin. apply Ht in Hin. congruence. }
    destruct (IH _ _ _ _ (tracks_insert seen missing name Ht)
                (NoDup_snoc missing name Hn Hnot) H)
      as (Ht' & Hn' & (added & Hadd) & Hin).
    split; [assumption|]. split; [assumption|]. split.
    { exists (name :: added). rewrite Hadd. now rewrite <- app_assoc. }
    intros n. rewrite Hin, in_app_iff. split.
    + intros [[?|[<-|[]]]|(Hne & Htbl & c & Hc & E)]; [auto| |].
      * right. split; [now destruct name|]. split; [assumption|].
        exists cmd. split; [now left | assumption].
      * right. split; [assumption|]. split; [assumption|].
        exists c. split; [now right | assumption].
    + intros [?|(Hne & Htbl & c & [<-|Hc] & E)]; [auto| |].
      * rewrite Ename in E. injection E as <-. left. right. now left.
      * right. eauto.
Qed.

Lemma missingOfSteps_inv tbl (steps : list Step) :
  forall missing seen result,
    tracks seen missing -> List.NoDup missing ->
    missingOfSteps tbl missing seen steps = Ok result ->
    List.NoDup result
    /\ (exists added, result = missing ++ added)
    /\ forall n,
         In n result <->
         In n missing \/ (n <> [] /\ tbl n = true /\ namedIn steps n).
Proof.
  induction steps as [|step steps IH]; intros missing seen result Ht Hn;
    cbn [missingOfSteps].
  - intros [= <-]. split; [assumption|].
    split; [exists []; now rewrite app_nil_r|].
    intros n. split; [auto|].
    intros [?|(_ & _ & st & _ & _ & [] & _)]. assumption.
  - destruct (isEmpty (Run step)) eqn:Er.
    { intros H. destruct (IH _ _ _ Ht Hn H) as (Hn' & Hadd & Hin).
      split; [assumption|]. split; [assumption|].
      intros n. rewrite Hin. split.
      - intros [?|(Hne & Htbl & st & cs & c & Hst & Hcs & Hc & E)]; [auto|].
        right. split; [assumption|]. split; [assumption|].
        exists st, cs, c. split; [now right | auto].
      - intros [?|(Hne & Htbl & st & cs & c & [<-|Hst] & Hcs & Hc & E)];
          [auto| |].
        + destruct (Run step); [|discriminate].
          injection Hcs as <-. destruct Hc.
        + right. split; [assumption|]. split; [assumption|].
          exists st, cs, c. auto. }
    rewrite extractCommands_spec. cbn [bind].
    set (commands := List.filter nonEmpty
                       (map commandOf (fragments (Run step)))) in *.
    destruct (missingOfCommands_total tbl commands missing seen)
      as ([missing1 seen1] & E1).
    rewrite E1. cbn [bind fst snd]. intros H.
    destruct (missingOfCommands_inv tbl commands _ _ _ _ Ht Hn E1)
      as (Ht1 & Hn1 & (added1 & Hadd1) & Hin1).
    destruct (IH _ _ _ Ht1 Hn1 H) as (Hn' & (added & Hadd) & Hin).
    split; [assumption|]. split.
    { exists (added1 ++ added). rewrite Hadd, Hadd1. now rewrite <- app_assoc. }
    intros n. rewrite Hin, Hin1. split.
    + intros [[?|(Hne & Htbl & c & Hc & E)]
             |(Hne & Htbl & st & cs & c & Hst & Hcs & Hc & E)]; [auto| |].
      * right. split; [assumption|]. split; [assumption|].
        exists step, commands, c. split; [now left|].
        split; [apply extractCommands_spec | auto].
      * right. split; [assumption|]. split; [assumption|].
        exists st, cs, c. split; [now right | auto].
    + intros [?|(Hne & Htbl & st & cs & c & [<-|Hst] & Hcs & Hc & E)];
        [auto| |].
      * left. right. split; [assumption|]. split; [assumption|].
        rewrite extractCommands_spec in Hcs. injection Hcs as <-.
        exists c. auto.
      * right. split; [assumption|]. split; [assumption|].
        exists st, cs, c. auto.
Qed.

Lemma GetMissingCommands_inv tbl (j : Job) :
  exists missing,
    GetMissingCommands tbl j = Ok missing
    /\ List.NoDup missing
    /\ forall n,
         In n missing <->
         IsUbuntuLatest j = true /\ n <> [] /\ tbl n = true
         /\ namedIn (Steps j) n.
Proof.
  unfold GetMissingCommands. destruct (IsUbuntuLatest j); cbn [negb].
  - destruct (missingOfSteps_total tbl (Steps j) [] ∅) as (r & E).
    exists r. split; [assumption|].
    destruct (missingOfSteps_inv tbl (Steps j) [] ∅ r tracks_empty
                (List.NoDup_nil _) E) as (Hn & _ & Hin).
    split; [assumption|]. intros n. rewrite Hin. split.
    + intros [[]|?]. auto.
    + intros (_ & ?). auto.
  - exists []. split; [reflexivity|]. split; [constructor|].
    intros n. split; [intros [] | intros (? & _); discriminate].
Qed.

(** X10.  [GetMissingCommands] reports no name twice, and every name it
    reports is not empty, is listed by the table and holds no [/]. *)
Theorem X10_missing_commands_distinct :
  forall (IsMissingInSlim : gostring -> bool) (j : Job),
    exists missing,
      GetMissingCommands IsMissingInSlim j = Ok missing
      /\ List.NoDup missing
      /\ forall n, In n missing ->
           n <> [] /\ IsMissingInSlim n = true /\ ~ In "/"%char n.
Proof.
  intros tbl j. destruct (GetMissingCommands_inv tbl j) as (r & E & Hn & Hin).
  exists r. split; [assumption|]. split; [assumption|].
  intros n H. apply Hin in H as (_ & Hne & Htbl & st & cs & c & _ & _ & _ & En).
  split; [assumption|]. split; [assumption|].
  destruct (normalizeCommand_cases c) as (dir & base & _ & Hb & E').
  rewrite E' in En. injection En as <-. now apply TrimSpace_no_byte.
Qed.

(** X11.  A name is reported by [GetMissingCommands] exactly when the job
    runs on ubuntu-latest, the name is not empty, the table lists it, and
    it is the normalized name of a command that [extractCommands] finds in
    the script of one of the steps. *)
Theorem X11_missing_commands_membership :
  forall (IsMissingInSlim : gostring -> bool) (j : Job),
    exists missing,
      GetMissingCommands IsMissingInSlim j = Ok missing
      /\ forall n,
           In n missing <->
           IsUbuntuLatest j = true /\ n <> [] /\ IsMissingInSlim n = true
           /\ exists step commands cmd,
                In step (Steps j)
                /\ extractCommands (Run step) = Ok commands
                /\ In cmd commands /\ normalizeCommand cmd = Ok n.
Proof.
  intros tbl j. destruct (GetMissingCommands_inv tbl j) as (r & E & _ & Hin).
  exists r. split; [assumption | exact Hin].
Qed.

Lemma missingOfSteps_app tbl (steps1 steps2 : list Step) :
  forall missing seen,
    tracks seen missing -> List.NoDup missing ->
    exists r1 added,
      missingOfSteps tbl missing seen steps1 = Ok r1
      /\ missingOfSteps tbl missing seen (steps1 ++ steps2)
         = Ok (r1 ++ added).
Proof.
  induction steps1 as [|step steps1 IH]; intros missing seen Ht Hn;
    cbn [app missingOfSteps].
  - destruct (missingOfSteps_total tbl steps2 missing seen) as (r & E).
    destruct (missingOfSteps_inv tbl steps2 _ _ _ Ht Hn E)
      as (_ & (added & ->) & _).
    exists missing, added. auto.
  - destruct (isEmpty (Run step)); [now apply IH|].
    rewrite extractCommands_spec. cbn [bind].
    set (commands := List.filter nonEmpty
                       (map commandOf (fragments (Run step)))).
    destruct (missingOfCommands_total tbl commands missing seen)
      as ([missing1 seen1] & E1).
    rewrite E1. cbn [bind fst snd].
    destruct (missingOfCommands_inv tbl commands _ _ _ _ Ht Hn E1)
      as (Ht1 & Hn1 & _).
    now apply IH.
Qed.

(** X12.  Steps added at the end of a job only add names at the end of
    the report: what is reported for the first steps is kept, in the
    same order. *)
Theorem X12_more_steps_append :
  forall (IsMissingInSlim : gostring -> bool) (runsOn : any)
         (steps1 steps2 : list Step) (services container : any),
    exists missing1 added,
      GetMissingCommands IsMissingInSlim
        (mkJob runsOn steps1 services container) = Ok missing1
      /\ GetMissingCommands IsMissingInSlim
           (mkJob runsOn (steps1 ++ steps2) services container)
         = Ok (missing1 ++ added).
Proof.
  intros tbl runsOn steps1 steps2 services container.
  unfold GetMissingCommands, IsUbuntuLatest. cbn [RunsOn Steps].
  destruct (match runsOn with
            | Str v => eqs v "ubuntu-latest"
            | Slice v => anyItemIs "ubuntu-latest" v
            | _ => false
            end); cbn [negb].
  - apply missingOfSteps_app; [apply tracks_empty | constructor].
  - exists [], []. auto.
Qed.
